(** * codigo.py: an AVL tree with insertion, removal and k-th largest key

    Shallow embedding of [src/codigo.py] (classes [No] and [ArvoreAVL]).

    - Keys are Python integers, modelled by [Z]; [<], [>], [==] are the
      comparisons of [Z].
    - A value of type [No | None] is an [arv]: [Vazio] is [None], and
      [No chave esquerda direita altura_atributo] is a node object with its
      four fields, in the order of the dataclass.  The trees built by the
      class are never shared between two parents, so the object graph
      reachable from a node is this inductive tree.
    - An [ArvoreAVL] is identified with its field [raiz].
    - Methods that assign fields of their argument return the argument as
      they leave it.  A method that can run into an attribute access on
      [None] returns a [resultado]: either the value returned, or the
      subtree rooted at its argument as it stands when [AttributeError]
      goes up. *)

From Stdlib Require Import ZArith List Bool Lia String Ascii.
From Stdlib Require Import Sorted Permutation DecimalString.
Import ListNotations.
Local Open Scope Z_scope.

(** ** Data model *)

Inductive arv : Type :=
| Vazio : arv
| No (chave : Z) (esquerda direita : arv) (altura_atributo : Z) : arv.

(** [No(chave)]: the dataclass defaults, [esquerda = None],
    [direita = None], [altura_atributo = 1]. *)
Definition No_novo (chave : Z) : arv := No chave Vazio Vazio 1.

(** Outcome of a method that assigns fields of the tree it is given. *)
Inductive resultado : Type :=
| Retorna (r : arv)
| Levanta (estado : arv).

(** The tree held by [self.raiz] after [self.raiz = self._m(self.raiz, x)]:
    the value returned, or, when the call raised, the old root object as the
    call left it (the assignment is not executed). *)
Definition arvore_apos (r : resultado) : arv :=
  match r with
  | Retorna t => t
  | Levanta s => s
  end.

(** ** Height and balance factor *)

Definition vazia (raiz : arv) : bool :=
  match raiz with
  | Vazio => true
  | No _ _ _ _ => false
  end.

Fixpoint altura (no : arv) : Z :=
  match no with
  | Vazio => -1
  | No _ e d _ => 1 + Z.max (altura e) (altura d)
  end.

Definition fator_balanceamento (no : arv) : Z :=
  match no with
  | Vazio => 0
  | No _ e d _ => altura e - altura d
  end.

(** ** Rotations

    [None] stands for the [AttributeError] of [no_centro.direita] (or
    [no_centro.esquerda]) when the pivot is absent; it is raised before any
    field is assigned. *)

Definition rotacao_direita (no_raiz : arv) : option arv :=
  match no_raiz with
  | No c (No cc ce cd _) d _ =>
      let no_raiz' := No c cd d (1 + Z.max (altura cd) (altura d)) in
      Some (No cc ce no_raiz' (1 + Z.max (altura ce) (altura no_raiz')))
  | _ => None
  end.

Definition rotacao_esquerda (no_raiz : arv) : option arv :=
  match no_raiz with
  | No c e (No cc ce cd _) _ =>
      let no_raiz' := No c e ce (1 + Z.max (altura e) (altura ce)) in
      Some (No cc no_raiz' cd (1 + Z.max (altura no_raiz') (altura cd)))
  | _ => None
  end.

(** [return self.rotacao_x(no)] *)
Definition retorna_rotacao (rot : arv -> option arv) (no : arv) : resultado :=
  match rot no with
  | Some r => Retorna r
  | None => Levanta no
  end.

(** ** Insertion *)

(** Lines 190-206 of [_insere]: [no] has its child and its height already
    assigned. *)
Definition rebalanceia_insere (chave : Z) (no : arv) : resultado :=
  match no with
  | Vazio => Levanta no
  | No c e d a =>
      let balanceamento := fator_balanceamento no in
      if balanceamento >? 1 then
        match e with
        | Vazio => Levanta no
        | No ce _ _ _ =>
            if chave <? ce then retorna_rotacao rotacao_direita no
            else
              match rotacao_esquerda e with
              | None => Levanta no
              | Some e' => retorna_rotacao rotacao_direita (No c e' d a)
              end
        end
      else if balanceamento <? -1 then
        match d with
        | Vazio => Levanta no
        | No cd _ _ _ =>
            if chave >? cd then retorna_rotacao rotacao_esquerda no
            else
              match rotacao_direita d with
              | None => Levanta no
              | Some d' => retorna_rotacao rotacao_esquerda (No c e d' a)
              end
        end
      else Retorna no
  end.

Fixpoint _insere (no : arv) (chave : Z) : resultado :=
  match no with
  | Vazio => Retorna (No_novo chave)
  | No c e d a =>
      if chave <? c then
        match _insere e chave with
        | Levanta e' => Levanta (No c e' d a)
        | Retorna e' =>
            rebalanceia_insere chave
              (No c e' d (1 + Z.max (altura e') (altura d)))
        end
      else
        match _insere d chave with
        | Levanta d' => Levanta (No c e d' a)
        | Retorna d' =>
            rebalanceia_insere chave
              (No c e d' (1 + Z.max (altura e) (altura d')))
        end
  end.

Definition insere (raiz : arv) (chave : Z) : resultado := _insere raiz chave.

(** ** Successor and minimum *)

(** [__minimo]: [None] is the [AttributeError] of [no.esquerda] on an
    absent [no]. *)
Fixpoint __minimo (no : arv) : option arv :=
  match no with
  | Vazio => None
  | No _ e _ _ =>
      match e with
      | Vazio => Some no
      | No _ _ _ _ => __minimo e
      end
  end.

(** The [while] loop of [__sucessor], for the key [chave] of its argument. *)
Fixpoint desce_sucessor (chave : Z) (atual sucessor : arv) : arv :=
  match atual with
  | Vazio => sucessor
  | No c e d _ =>
      if chave <? c then desce_sucessor chave e atual
      else if chave >? c then desce_sucessor chave d sucessor
      else sucessor
  end.

(** [__sucessor] reads [self.raiz]: it takes the tree as it stands. *)
Definition __sucessor (raiz no : arv) : option arv :=
  match no with
  | Vazio => Some Vazio
  | No c _ d _ =>
      match d with
      | Vazio => Some (desce_sucessor c raiz Vazio)
      | No _ _ _ _ => __minimo d
      end
  end.

(** ** Removal *)

(** Lines 255-273 of [_remove]. *)
Definition rebalanceia_remove (no : arv) : resultado :=
  match no with
  | Vazio => Levanta no
  | No c e d a =>
      let balanceamento := fator_balanceamento no in
      if balanceamento >? 1 then
        if fator_balanceamento e >=? 0 then retorna_rotacao rotacao_direita no
        else
          match rotacao_esquerda e with
          | None => Levanta no
          | Some e' => retorna_rotacao rotacao_direita (No c e' d a)
          end
      else if balanceamento <? -1 then
        if fator_balanceamento d <=? 0 then retorna_rotacao rotacao_esquerda no
        else
          match rotacao_direita d with
          | None => Levanta no
          | Some d' => retorna_rotacao rotacao_esquerda (No c e d' a)
          end
      else Retorna no
  end.

(** An ancestor of the node a call of [_remove] works on, as it stands in
    memory while the call runs: which child the descent took, and the
    ancestor's other three fields. *)
Inductive quadro : Type :=
| DesceEsquerda (chave : Z) (direita : arv) (altura_atributo : Z)
| DesceDireita (chave : Z) (esquerda : arv) (altura_atributo : Z).

(** The tree under [self.raiz] while [_remove] works on [no]: the nearest
    ancestor comes first. *)
Fixpoint reconstroi (acima : list quadro) (no : arv) : arv :=
  match acima with
  | [] => no
  | DesceEsquerda c d a :: r => reconstroi r (No c no d a)
  | DesceDireita c e a :: r => reconstroi r (No c e no a)
  end.

(** [_remove].  A call assigns [no.esquerda], [no.direita] and the height
    only after its recursive call has returned, and [no.chave] before it, so
    the ancestors in [acima] carry their old children and, where the copy of
    line 252 ran, their new key. *)
Fixpoint _remove (acima : list quadro) (no : arv) (chave : Z) : resultado :=
  match no with
  | Vazio => Retorna Vazio
  | No c e d a =>
      if chave <? c then
        match _remove (DesceEsquerda c d a :: acima) e chave with
        | Levanta e' => Levanta (No c e' d a)
        | Retorna e' =>
            rebalanceia_remove (No c e' d (1 + Z.max (altura e') (altura d)))
        end
      else if chave >? c then
        match _remove (DesceDireita c e a :: acima) d chave with
        | Levanta d' => Levanta (No c e d' a)
        | Retorna d' =>
            rebalanceia_remove (No c e d' (1 + Z.max (altura e) (altura d')))
        end
      else
        match e, d with
        | Vazio, _ => Retorna d
        | No _ _ _ _, Vazio => Retorna e
        | No _ _ _ _, No _ _ _ _ =>
            match __sucessor (reconstroi acima no) d with
            | Some (No tc _ _ _) =>
                match _remove (DesceDireita tc e a :: acima) d tc with
                | Levanta d' => Levanta (No tc e d' a)
                | Retorna d' =>
                    rebalanceia_remove
                      (No tc e d' (1 + Z.max (altura e) (altura d')))
                end
            | _ => Levanta no
            end
        end
  end.

Definition remove (raiz : arv) (chave : Z) : resultado := _remove [] raiz chave.

(** ** Search *)

Fixpoint _buscar (no : arv) (elemento : Z) : arv :=
  match no with
  | Vazio => Vazio
  | No c e d _ =>
      if c =? elemento then no
      else if elemento <? c then _buscar e elemento
      else _buscar d elemento
  end.

Definition buscar (raiz : arv) (elemento : Z) : arv := _buscar raiz elemento.

(** ** K-th largest key

    [self.contador] and [self.resultado] are threaded as a pair. *)

Definition estado_k : Type := (Z * option Z)%type.

Fixpoint _k_esimo_maior (no : arv) (k : Z) (s : estado_k) : estado_k :=
  match no with
  | Vazio => s
  | No c e d _ =>
      if fst s >=? k then s
      else
        let s1 := _k_esimo_maior d k s in
        if fst s1 <? k then
          let contador := fst s1 + 1 in
          if contador =? k then (contador, Some c)
          else _k_esimo_maior e k (contador, snd s1)
        else s1
  end.

Definition k_esimo_maior (raiz : arv) (k : Z) : option Z :=
  snd (_k_esimo_maior raiz k (0, None)).

(** ** Pre-order text *)

(** [str] of a Python integer. *)
Definition str (z : Z) : string := NilZero.string_of_int (Z.to_int z).

Fixpoint _exibe_pre_ordem (raiz : arv) : string :=
  match raiz with
  | Vazio => EmptyString
  | No c e d _ =>
      let repr := ("(" ++ str c)%string in
      let repr :=
        match e with
        | Vazio => repr
        | No _ _ _ _ => (repr ++ " " ++ _exibe_pre_ordem e)%string
        end in
      let repr :=
        match d with
        | Vazio => repr
        | No _ _ _ _ => (repr ++ " " ++ _exibe_pre_ordem d)%string
        end in
      (repr ++ ")")%string
  end.

Definition exibe_pre_ordem (raiz : arv) : string := _exibe_pre_ordem raiz.

(** ** Sequences of public calls *)

Inductive chamada : Type :=
| Insere (chave : Z)
| Remove (chave : Z).

Definition chama (raiz : arv) (c : chamada) : resultado :=
  match c with
  | Insere k => insere raiz k
  | Remove k => remove raiz k
  end.

(** Runs the calls in order; a call that raises ends the run. *)
Fixpoint executa (cs : list chamada) (raiz : arv) : resultado :=
  match cs with
  | [] => Retorna raiz
  | c :: r =>
      match chama raiz c with
      | Retorna raiz' => executa r raiz'
      | Levanta s => Levanta s
      end
  end.

Definition insere_todos (ks : list Z) : list chamada := map Insere ks.

(** ** What is observed of a tree *)

Fixpoint em_ordem (t : arv) : list Z :=
  match t with
  | Vazio => []
  | No c e d _ => em_ordem e ++ c :: em_ordem d
  end.

(** The stored keys, root first. *)
Fixpoint pre_ordem (t : arv) : list Z :=
  match t with
  | Vazio => []
  | No c e d _ => c :: pre_ordem e ++ pre_ordem d
  end.

(** Right subtree, node, left subtree: the order in which
    [_k_esimo_maior] counts. *)
Fixpoint em_ordem_inversa (t : arv) : list Z :=
  match t with
  | Vazio => []
  | No c e d _ => em_ordem_inversa d ++ c :: em_ordem_inversa e
  end.

Fixpoint tamanho (t : arv) : nat :=
  match t with
  | Vazio => O
  | No _ e d _ => S (tamanho e + tamanho d)
  end.

(** The tree with every cached height erased. *)
Fixpoint sem_cache (t : arv) : arv :=
  match t with
  | Vazio => Vazio
  | No c e d _ => No c (sem_cache e) (sem_cache d) 0
  end.

(** ** Invariants of the data model *)

Definition todas (P : Z -> Prop) (t : arv) : Prop := Forall P (em_ordem t).

(** Order invariant as the data model words it: left keys strictly below. *)
Fixpoint abb_estrita (t : arv) : Prop :=
  match t with
  | Vazio => True
  | No c e d _ =>
      todas (fun x => x < c) e /\ todas (fun x => c <= x) d /\
      abb_estrita e /\ abb_estrita d
  end.

(** Order invariant with equal keys allowed on both sides. *)
Fixpoint abb (t : arv) : Prop :=
  match t with
  | Vazio => True
  | No c e d _ =>
      todas (fun x => x <= c) e /\ todas (fun x => c <= x) d /\
      abb e /\ abb d
  end.

Fixpoint balanceada (t : arv) : Prop :=
  match t with
  | Vazio => True
  | No _ e d _ =>
      -1 <= altura e - altura d <= 1 /\ balanceada e /\ balanceada d
  end.

(** The height oracle as a reader of the cached field. *)
Definition altura_em_cache (no : arv) : Z :=
  match no with
  | Vazio => -1
  | No _ _ _ a => a
  end.

Fixpoint cache_consistente (t : arv) : Prop :=
  match t with
  | Vazio => True
  | No _ e d a =>
      a = 1 + Z.max (altura_em_cache e) (altura_em_cache d) /\
      cache_consistente e /\ cache_consistente d
  end.

(** Whether [_remove no chave] reaches lines 251-253: the descent ends on a
    node that holds [chave] and has both children. *)
Fixpoint dois_filhos (no : arv) (chave : Z) : bool :=
  match no with
  | Vazio => false
  | No c e d _ =>
      if chave <? c then dois_filhos e chave
      else if chave >? c then dois_filhos d chave
      else
        match e, d with
        | No _ _ _ _, No _ _ _ _ => true
        | _, _ => false
        end
  end.

(** No removal of the run reaches lines 251-253. *)
Fixpoint sem_copia_de_sucessor (cs : list chamada) (raiz : arv) : bool :=
  match cs with
  | [] => true
  | c :: r =>
      match c with
      | Insere _ => true
      | Remove k => negb (dois_filhos raiz k)
      end &&
      match chama raiz c with
      | Retorna raiz' => sem_copia_de_sucessor r raiz'
      | Levanta _ => true
      end
  end.

(** ** Descending sort of a list of keys *)

Fixpoint insere_decrescente (x : Z) (l : list Z) : list Z :=
  match l with
  | [] => [x]
  | y :: r => if y <=? x then x :: l else y :: insere_decrescente x r
  end.

Fixpoint ordena_decrescente (l : list Z) : list Z :=
  match l with
  | [] => []
  | x :: r => insere_decrescente x (ordena_decrescente r)
  end.

(** The arguments [1, 2, ..., n]. *)
Definition de_1_ate (n : nat) : list Z := map Z.of_nat (seq 1 n).

(** ** Trees of the doctests and of the scenarios below *)

(** [(10 (5) (12))], every cached height consistent. *)
Definition arvore_de_tres : arv :=
  No 10 (No 5 Vazio Vazio 0) (No 12 Vazio Vazio 0) 1.

(** [(10 (5) (20 (15) (25)))], every cached height consistent. *)
Definition arvore_de_cinco : arv :=
  No 10 (No 5 Vazio Vazio 0)
     (No 20 (No 15 Vazio Vazio 0) (No 25 Vazio Vazio 0) 1) 2.

(** [(10 (10))], every cached height consistent. *)
Definition arvore_de_dois_iguais : arv :=
  No 10 Vazio (No 10 Vazio Vazio 0) 1.

(** The tree of the doctest of [k_esimo_maior]. *)
Definition arvore_de_sete : arv :=
  No 19 (No 9 (No 4 Vazio Vazio 1) (No 14 Vazio Vazio 1) 1)
     (No 49 (No 29 Vazio Vazio 0) (No 88 Vazio Vazio 0) 1) 2.

(** ** Further observations *)

Definition chave_de (no : arv) : option Z :=
  match no with
  | Vazio => None
  | No c _ _ _ => Some c
  end.

Definition esquerda_de (no : arv) : arv :=
  match no with
  | Vazio => Vazio
  | No _ e _ _ => e
  end.

Definition direita_de (no : arv) : arv :=
  match no with
  | Vazio => Vazio
  | No _ _ d _ => d
  end.

(** The first key of [l] strictly above [c]. *)
Definition proximo (c : Z) (l : list Z) : option Z :=
  hd_error (filter (fun x => c <? x) l).

(** Every cached height is the height of its node, except that a node
    without children may hold 1. *)
Fixpoint cache_salvo_folhas (t : arv) : Prop :=
  match t with
  | Vazio => True
  | No _ e d a =>
      (a = 1 + Z.max (altura e) (altura d) \/
       (e = Vazio /\ d = Vazio /\ a = 1)) /\
      cache_salvo_folhas e /\ cache_salvo_folhas d
  end.

Fixpoint fib (n : nat) : nat :=
  match n with
  | O => O
  | S m =>
      match m with
      | O => 1%nat
      | S p => (fib m + fib p)%nat
      end
  end.

(** Every [Insere] of the run gives a key that no node holds at that
    moment. *)
Fixpoint insere_chaves_novas (cs : list chamada) (raiz : arv) : bool :=
  match cs with
  | [] => true
  | c :: r =>
      match c with
      | Insere k => negb (existsb (Z.eqb k) (pre_ordem raiz))
      | Remove _ => true
      end &&
      match chama raiz c with
      | Retorna raiz' => insere_chaves_novas r raiz'
      | Levanta _ => true
      end
  end.

(** ** Closed goals on concrete trees *)

Ltac concreto :=
  repeat first
    [ reflexivity
    | lia
    | match goal with |- _ /\ _ => split end
    | match goal with |- True => exact I end
    | match goal with |- todas _ _ => unfold todas; cbn end
    | match goal with |- Forall _ _ => constructor end
    | match goal with |- Sorted _ _ => constructor end
    | match goal with |- HdRel _ _ _ => constructor end ].

(** * Properties *)

Arguments rebalanceia_insere : simpl never.
Arguments rebalanceia_remove : simpl never.
Arguments retorna_rotacao : simpl never.

(** ** Rotations and rebalancing keep the in-order sequence *)

Lemma rotacao_direita_em_ordem t t' :
  rotacao_direita t = Some t' -> em_ordem t' = em_ordem t.
Proof.
  destruct t as [|c [|cc ce cd ca] d a]; simpl; try discriminate.
  intros H; injection H as <-. simpl.
  now rewrite <- app_assoc.
Qed.

Lemma rotacao_esquerda_em_ordem t t' :
  rotacao_esquerda t = Some t' -> em_ordem t' = em_ordem t.
Proof.
  destruct t as [|c e [|cc ce cd ca] a]; simpl; try discriminate.
  intros H; injection H as <-. simpl.
  now rewrite <- app_assoc.
Qed.

Lemma retorna_rotacao_direita_em_ordem t :
  em_ordem (arvore_apos (retorna_rotacao rotacao_direita t)) = em_ordem t.
Proof.
  unfold retorna_rotacao.
  destruct (rotacao_direita t) eqn:E; simpl; auto using rotacao_direita_em_ordem.
Qed.

Lemma retorna_rotacao_esquerda_em_ordem t :
  em_ordem (arvore_apos (retorna_rotacao rotacao_esquerda t)) = em_ordem t.
Proof.
  unfold retorna_rotacao.
  destruct (rotacao_esquerda t) eqn:E; simpl; auto using rotacao_esquerda_em_ordem.
Qed.

Lemma rebalanceia_insere_em_ordem k t :
  em_ordem (arvore_apos (rebalanceia_insere k t)) = em_ordem t.
Proof.
  destruct t as [|c e d a]; [reflexivity|].
  unfold rebalanceia_insere.
  destruct (fator_balanceamento (No c e d a) >? 1).
  - destruct e as [|ce ee ed ea]; [reflexivity|].
    destruct (k <? ce).
    + apply retorna_rotacao_direita_em_ordem.
    + destruct (rotacao_esquerda (No ce ee ed ea)) as [e'|] eqn:E; [|reflexivity].
      rewrite retorna_rotacao_direita_em_ordem. simpl.
      now rewrite (rotacao_esquerda_em_ordem _ _ E).
  - destruct (fator_balanceamento (No c e d a) <? -1); [|reflexivity].
    destruct d as [|cd de dd da]; [reflexivity|].
    destruct (k >? cd).
    + apply retorna_rotacao_esquerda_em_ordem.
    + destruct (rotacao_direita (No cd de dd da)) as [d'|] eqn:E; [|reflexivity].
      rewrite retorna_rotacao_esquerda_em_ordem. simpl.
      now rewrite (rotacao_direita_em_ordem _ _ E).
Qed.

Lemma rebalanceia_remove_em_ordem t :
  em_ordem (arvore_apos (rebalanceia_remove t)) = em_ordem t.
Proof.
  destruct t as [|c e d a]; [reflexivity|].
  unfold rebalanceia_remove.
  destruct (fator_balanceamento (No c e d a) >? 1).
  - destruct (fator_balanceamento e >=? 0).
    + apply retorna_rotacao_direita_em_ordem.
    + destruct (rotacao_esquerda e) as [e'|] eqn:E; [|reflexivity].
      rewrite retorna_rotacao_direita_em_ordem. simpl.
      now rewrite (rotacao_esquerda_em_ordem _ _ E).
  - destruct (fator_balanceamento (No c e d a) <? -1); [|reflexivity].
    destruct (fator_balanceamento d <=? 0).
    + apply retorna_rotacao_esquerda_em_ordem.
    + destruct (rotacao_direita d) as [d'|] eqn:E; [|reflexivity].
      rewrite retorna_rotacao_esquerda_em_ordem. simpl.
      now rewrite (rotacao_direita_em_ordem _ _ E).
Qed.

(** ** Insertion on the in-order sequence *)

Lemma _insere_em_ordem_no c e d a k :
  em_ordem (arvore_apos (_insere (No c e d a) k)) =
  if k <? c then em_ordem (arvore_apos (_insere e k)) ++ c :: em_ordem d
  else em_ordem e ++ c :: em_ordem (arvore_apos (_insere d k)).
Proof.
  simpl. destruct (k <? c).
  - destruct (_insere e k) as [e'|e']; simpl; [|reflexivity].
    now rewrite rebalanceia_insere_em_ordem.
  - destruct (_insere d k) as [d'|d']; simpl; [|reflexivity].
    now rewrite rebalanceia_insere_em_ordem.
Qed.

Lemma tamanho_em_ordem t : tamanho t = List.length (em_ordem t).
Proof.
  induction t as [|c e IHe d IHd a]; simpl; [reflexivity|].
  rewrite length_app. simpl. lia.
Qed.

Lemma _insere_permuta t k :
  Permutation (em_ordem (arvore_apos (_insere t k))) (k :: em_ordem t).
Proof.
  induction t as [|c e IHe d IHd a].
  - simpl. apply Permutation_refl.
  - rewrite _insere_em_ordem_no. destruct (k <? c).
    + simpl em_ordem. rewrite IHe. reflexivity.
    + simpl em_ordem. rewrite IHd.
      rewrite (Permutation_middle (em_ordem e) (c :: em_ordem d) k).
      apply Permutation_app_head. apply perm_swap.
Qed.

(** ** Non-decreasing sequences *)

Lemma ordenada_app (l1 l2 : list Z) (c : Z) :
  StronglySorted Z.le (l1 ++ c :: l2) <->
  StronglySorted Z.le l1 /\ StronglySorted Z.le l2 /\
  Forall (fun x => x <= c) l1 /\ Forall (fun x => c <= x) l2.
Proof.
  induction l1 as [|x l1 IH]; simpl.
  - split.
    + intros H. apply StronglySorted_inv in H as [H1 H2].
      repeat split; auto. constructor.
    + intros (_ & H1 & _ & H2). now constructor.
  - split.
    + intros H. apply StronglySorted_inv in H as [H1 H2].
      apply IH in H1 as (S1 & S2 & F1 & F2).
      apply Forall_app in H2 as [G1 G2].
      apply Forall_cons_iff in G2 as [G2 G3].
      repeat split; auto; now constructor.
    + intros (S1 & S2 & F1 & F2).
      apply StronglySorted_inv in S1 as [S1 G1].
      apply Forall_cons_iff in F1 as [Hx F1].
      constructor.
      * apply IH. auto.
      * apply Forall_app. split; [assumption|].
        constructor; [assumption|].
        eapply Forall_impl; [|exact F2]. simpl. intros. lia.
Qed.

Lemma abb_ordenada t : abb t <-> StronglySorted Z.le (em_ordem t).
Proof.
  induction t as [|c e IHe d IHd a]; simpl.
  - split; [constructor | trivial].
  - rewrite ordenada_app, IHe, IHd. unfold todas. tauto.
Qed.

Lemma _insere_ordenada t k :
  StronglySorted Z.le (em_ordem t) ->
  StronglySorted Z.le (em_ordem (arvore_apos (_insere t k))).
Proof.
  induction t as [|c e IHe d IHd a]; intros H.
  - simpl. repeat constructor.
  - rewrite _insere_em_ordem_no. simpl in H.
    apply ordenada_app in H as (S1 & S2 & F1 & F2).
    destruct (k <? c) eqn:E; apply ordenada_app; repeat split; auto.
    + apply (Permutation_Forall (Permutation_sym (_insere_permuta e k))).
      constructor; [lia | assumption].
    + apply (Permutation_Forall (Permutation_sym (_insere_permuta d k))).
      constructor; [lia | assumption].
Qed.

(** ** Removal on the in-order sequence *)

Lemma _remove_em_ordem_no acima c e d a k :
  em_ordem (arvore_apos (_remove acima (No c e d a) k)) =
  if k <? c then
    em_ordem (arvore_apos (_remove (DesceEsquerda c d a :: acima) e k))
    ++ c :: em_ordem d
  else if k >? c then
    em_ordem e
    ++ c :: em_ordem (arvore_apos (_remove (DesceDireita c e a :: acima) d k))
  else
    match e, d with
    | Vazio, _ => em_ordem d
    | No _ _ _ _, Vazio => em_ordem e
    | No _ _ _ _, No _ _ _ _ =>
        match __sucessor (reconstroi acima (No c e d a)) d with
        | Some (No tc _ _ _) =>
            em_ordem e ++ tc ::
            em_ordem (arvore_apos (_remove (DesceDireita tc e a :: acima) d tc))
        | _ => em_ordem e ++ c :: em_ordem d
        end
    end.
Proof.
  simpl _remove. destruct (k <? c).
  - destruct (_remove _ e k) as [e'|e']; simpl; [|reflexivity].
    now rewrite rebalanceia_remove_em_ordem.
  - destruct (k >? c).
    + destruct (_remove _ d k) as [d'|d']; simpl; [|reflexivity].
      now rewrite rebalanceia_remove_em_ordem.
    + destruct e as [|ce ee ed ea]; [reflexivity|].
      destruct d as [|cd de dd da]; [reflexivity|].
      destruct (__sucessor _ _) as [[|tc te td ta]|]; try reflexivity.
      destruct (_remove _ _ tc) as [d'|d']; simpl; [|reflexivity].
      now rewrite rebalanceia_remove_em_ordem.
Qed.

Lemma _remove_simples_ordenada t : forall acima k,
  dois_filhos t k = false ->
  StronglySorted Z.le (em_ordem t) ->
  StronglySorted Z.le (em_ordem (arvore_apos (_remove acima t k))) /\
  incl (em_ordem (arvore_apos (_remove acima t k))) (em_ordem t).
Proof.
  induction t as [|c e IHe d IHd a]; intros acima k Hk H.
  - simpl. split; [constructor | apply incl_refl].
  - rewrite _remove_em_ordem_no. simpl in Hk, H.
    apply ordenada_app in H as (S1 & S2 & F1 & F2).
    destruct (k <? c).
    + destruct (IHe (DesceEsquerda c d a :: acima) k Hk S1) as [T I].
      split.
      * apply ordenada_app. repeat split; auto.
        eapply incl_Forall; eassumption.
      * apply incl_app_app; [assumption | apply incl_refl].
    + destruct (k >? c).
      * destruct (IHd (DesceDireita c e a :: acima) k Hk S2) as [T I].
        split.
        -- apply ordenada_app. repeat split; auto.
           eapply incl_Forall; eassumption.
        -- apply incl_app_app; [apply incl_refl|].
           apply incl_cons; [now left | now apply incl_tl].
      * destruct e as [|ce ee ed ea].
        -- split; [assumption|]. simpl. apply incl_tl, incl_refl.
        -- destruct d as [|cd de dd da]; [|discriminate].
           split; [assumption|]. apply incl_appl, incl_refl.
Qed.

Lemma executa_ordenada cs : forall t0 t,
  StronglySorted Z.le (em_ordem t0) ->
  sem_copia_de_sucessor cs t0 = true ->
  executa cs t0 = Retorna t ->
  StronglySorted Z.le (em_ordem t).
Proof.
  induction cs as [|c r IH]; intros t0 t H0 Hs Hx; simpl in *.
  - now injection Hx as <-.
  - apply andb_prop in Hs as [Hc Hr].
    destruct (chama t0 c) as [t1|s] eqn:E; [|discriminate].
    apply (IH t1 t); auto.
    destruct c as [k|k]; simpl in E.
    + pose proof (_insere_ordenada t0 k H0) as H1.
      unfold insere in E. now rewrite E in H1.
    + apply negb_true_iff in Hc.
      destruct (_remove_simples_ordenada t0 [] k Hc H0) as [H1 _].
      unfold remove in E. now rewrite E in H1.
Qed.

(** ** K-th largest key: the counter walks the reverse in-order sequence *)

Lemma em_ordem_inversa_rev t : em_ordem_inversa t = rev (em_ordem t).
Proof.
  induction t as [|c e IHe d IHd a]; simpl; [reflexivity|].
  rewrite rev_app_distr. simpl. rewrite <- app_assoc. simpl.
  now rewrite IHe, IHd.
Qed.

Lemma _k_esimo_maior_conta t : forall k n r,
  _k_esimo_maior t k (n, r) =
  if n >=? k then (n, r)
  else
    match nth_error (em_ordem_inversa t) (Z.to_nat (k - n - 1)) with
    | Some x => (k, Some x)
    | None => (n + Z.of_nat (List.length (em_ordem_inversa t)), r)
    end.
Proof.
  induction t as [|c e IHe d IHd a]; intros k n r.
  - simpl. destruct (n >=? k); [reflexivity|].
    destruct (Z.to_nat (k - n - 1)); simpl; now rewrite Z.add_0_r.
  - simpl _k_esimo_maior. simpl fst.
    destruct (n >=? k) eqn:E; [reflexivity|].
    assert (Hn : n < k) by (rewrite Z.geb_leb in E; apply Z.leb_gt in E; lia).
    rewrite IHd, E. simpl em_ordem_inversa.
    set (ld := em_ordem_inversa d).
    destruct (nth_error ld (Z.to_nat (k - n - 1))) as [x|] eqn:N.
    + simpl fst. rewrite Z.ltb_irrefl.
      rewrite nth_error_app1, N; [reflexivity|].
      apply nth_error_Some. congruence.
    + apply nth_error_None in N. simpl fst. simpl snd.
      assert (Hl : (n + Z.of_nat (List.length ld) <? k) = true)
        by (apply Z.ltb_lt; lia).
      rewrite Hl, nth_error_app2 by assumption.
      destruct (n + Z.of_nat (List.length ld) + 1 =? k) eqn:K.
      * apply Z.eqb_eq in K.
        replace (Z.to_nat (k - n - 1) - List.length ld)%nat with O by lia.
        simpl. now rewrite K.
      * apply Z.eqb_neq in K. rewrite IHe.
        assert (Hg : (n + Z.of_nat (List.length ld) + 1 >=? k) = false)
          by (rewrite Z.geb_leb; apply Z.leb_gt; lia).
        rewrite Hg.
        replace (Z.to_nat (k - n - 1) - List.length ld)%nat
          with (S (Z.to_nat (k - (n + Z.of_nat (List.length ld) + 1) - 1)))
          by lia.
        simpl nth_error.
        destruct (nth_error (em_ordem_inversa e) _); [reflexivity|].
        rewrite length_app. simpl List.length. f_equal. lia.
Qed.

Lemma k_esimo_maior_nth t k :
  k_esimo_maior t k =
  if k <=? 0 then None else nth_error (em_ordem_inversa t) (Z.to_nat (k - 1)).
Proof.
  unfold k_esimo_maior. rewrite _k_esimo_maior_conta.
  rewrite Z.geb_leb. destruct (k <=? 0); [reflexivity|].
  rewrite Z.sub_0_r. now destruct (nth_error _ _).
Qed.

Lemma map_nth_error_seq (l : list Z) :
  map (nth_error l) (seq 0 (List.length l)) = map Some l.
Proof.
  induction l as [|x l IH]; [reflexivity|].
  simpl. f_equal. rewrite <- seq_shift, map_map. exact IH.
Qed.

Lemma k_esimo_maior_de_1_ate t :
  map (k_esimo_maior t) (de_1_ate (tamanho t)) = map Some (em_ordem_inversa t).
Proof.
  unfold de_1_ate. rewrite <- seq_shift, !map_map.
  rewrite <- map_nth_error_seq.
  replace (List.length (em_ordem_inversa t)) with (tamanho t)
    by (now rewrite tamanho_em_ordem, em_ordem_inversa_rev, length_rev).
  apply map_ext. intros i. rewrite k_esimo_maior_nth.
  replace (Z.of_nat (S i) <=? 0) with false by (symmetry; apply Z.leb_gt; lia).
  f_equal. lia.
Qed.

Lemma k_esimo_maior_fora t k :
  k < 1 \/ Z.of_nat (tamanho t) < k -> k_esimo_maior t k = None.
Proof.
  intros H. rewrite k_esimo_maior_nth.
  destruct (k <=? 0) eqn:E; [reflexivity|]. apply Z.leb_gt in E.
  apply nth_error_None.
  rewrite em_ordem_inversa_rev, length_rev, <- tamanho_em_ordem. lia.
Qed.

(** ** The descending sort is the only descending arrangement *)

Lemma insere_decrescente_comuta x y l :
  insere_decrescente x (insere_decrescente y l) =
  insere_decrescente y (insere_decrescente x l).
Proof.
  induction l as [|z l IH]; simpl.
  - destruct (Z.leb_spec y x), (Z.leb_spec x y); try reflexivity; try lia.
    now replace y with x by lia.
  - destruct (Z.leb_spec z y), (Z.leb_spec z x); simpl;
      destruct (Z.leb_spec y x), (Z.leb_spec x y); simpl;
      repeat match goal with
             | |- context [?u <=? ?v] => destruct (Z.leb_spec u v)
             end;
      try reflexivity; try lia.
    + now replace y with x by lia.
    + now rewrite IH.
    + now rewrite IH.
    + now rewrite IH.
Qed.

Lemma ordena_decrescente_permuta l l' :
  Permutation l l' -> ordena_decrescente l = ordena_decrescente l'.
Proof.
  induction 1; simpl.
  - reflexivity.
  - now f_equal.
  - apply insere_decrescente_comuta.
  - congruence.
Qed.

Lemma ordena_decrescente_fixo l :
  StronglySorted Z.ge l -> ordena_decrescente l = l.
Proof.
  induction 1 as [|x l S IH F]; simpl; [reflexivity|].
  rewrite IH. destruct F as [|y l Hy F]; simpl; [reflexivity|].
  now replace (y <=? x) with true by (symmetry; apply Z.leb_le; lia).
Qed.

Lemma decrescente_snoc l x :
  StronglySorted Z.ge l -> Forall (fun y => y >= x) l ->
  StronglySorted Z.ge (l ++ [x]).
Proof.
  induction 1 as [|y l S IH F]; intros G; simpl.
  - repeat constructor.
  - apply Forall_cons_iff in G as [Gy G]. constructor; [auto|].
    apply Forall_app. split; [assumption | now repeat constructor].
Qed.

Lemma ordenada_rev l :
  StronglySorted Z.le l -> StronglySorted Z.ge (rev l).
Proof.
  induction 1 as [|x l S IH F]; simpl; [constructor|].
  apply decrescente_snoc; [assumption|].
  apply Forall_rev. eapply Forall_impl; [|exact F]. simpl. intros. lia.
Qed.

Lemma em_ordem_pre_ordem t : Permutation (em_ordem t) (pre_ordem t).
Proof.
  induction t as [|c e IHe d IHd a]; simpl; [constructor|].
  rewrite <- Permutation_middle. constructor.
  now apply Permutation_app.
Qed.

Lemma em_ordem_inversa_ordenacao t :
  Sorted Z.le (em_ordem t) ->
  ordena_decrescente (pre_ordem t) = em_ordem_inversa t.
Proof.
  intros H. apply Sorted_StronglySorted in H; [|exact Z.le_trans].
  rewrite <- (ordena_decrescente_permuta _ _ (em_ordem_pre_ordem t)).
  rewrite (ordena_decrescente_permuta _ _ (Permutation_rev (em_ordem t))).
  rewrite em_ordem_inversa_rev.
  apply ordena_decrescente_fixo. now apply ordenada_rev.
Qed.

(** ** Cached heights do not influence heights, rebalancing or the text *)

Lemma altura_sem_cache t : altura (sem_cache t) = altura t.
Proof.
  induction t as [|c e IHe d IHd a]; simpl; [reflexivity|].
  now rewrite IHe, IHd.
Qed.

Lemma altura_mesma_forma t t' :
  sem_cache t' = sem_cache t -> altura t' = altura t.
Proof.
  intros H. now rewrite <- (altura_sem_cache t'), H, altura_sem_cache.
Qed.

Lemma _exibe_pre_ordem_sem_cache t :
  _exibe_pre_ordem (sem_cache t) = _exibe_pre_ordem t.
Proof.
  induction t as [|c e IHe d IHd a]; [reflexivity|].
  simpl. rewrite IHe, IHd.
  now destruct e, d.
Qed.

Lemma rebalanceia_remove_balanceado c e d a :
  -1 <= altura e - altura d <= 1 ->
  rebalanceia_remove (No c e d a) = Retorna (No c e d a).
Proof.
  intros H. unfold rebalanceia_remove, fator_balanceamento.
  replace (altura e - altura d >? 1) with false
    by (symmetry; rewrite Z.gtb_ltb; apply Z.ltb_ge; lia).
  now replace (altura e - altura d <? -1) with false
    by (symmetry; apply Z.ltb_ge; lia).
Qed.

Lemma _remove_ausente t : forall acima k,
  balanceada t -> ~ In k (pre_ordem t) ->
  exists t', _remove acima t k = Retorna t' /\ sem_cache t' = sem_cache t.
Proof.
  induction t as [|c e IHe d IHd a]; intros acima k B A.
  - exists Vazio. split; reflexivity.
  - simpl in B, A. destruct B as (Bn & Be & Bd).
    assert (Ac : c <> k) by tauto.
    assert (Ae : ~ In k (pre_ordem e)) by (rewrite in_app_iff in A; tauto).
    assert (Ad : ~ In k (pre_ordem d)) by (rewrite in_app_iff in A; tauto).
    simpl _remove. destruct (Z.ltb_spec k c) as [L|L].
    + destruct (IHe (DesceEsquerda c d a :: acima) k Be Ae) as (e' & R & F).
      rewrite R, rebalanceia_remove_balanceado
        by (rewrite (altura_mesma_forma _ _ F); exact Bn).
      eexists. split; [reflexivity|]. simpl. now rewrite F.
    + rewrite Z.gtb_ltb. destruct (Z.ltb_spec c k) as [G|G]; [|lia].
      destruct (IHd (DesceDireita c e a :: acima) k Bd Ad) as (d' & R & F).
      rewrite R, rebalanceia_remove_balanceado
        by (rewrite (altura_mesma_forma _ _ F); exact Bn).
      eexists. split; [reflexivity|]. simpl. now rewrite F.
Qed.

Lemma altura_le_cache t :
  cache_consistente t -> altura t = altura_em_cache t.
Proof.
  induction t as [|c e IHe d IHd a]; simpl; [reflexivity|].
  intros (H & He & Hd). now rewrite IHe, IHd.
Qed.

(** * The claims *)

(** C1 (the code departs from the claim).  On a node with both children
    [_remove] calls [__sucessor] on the right child, not on the matched
    node.  On [(10 (5) (20 (15) (25)))], a tree that satisfies the
    invariants and is reached by public calls, the leftmost node of the
    right subtree of the root holds 15, but [remove 10] copies 25 into the
    root and deletes 25 from the right subtree: the result is
    [(25 (5) (20 (15)))]. *)
Theorem remove_copia_sucessor_do_filho_direito :
  executa (insere_todos [10; 5; 20; 15; 25] ++ [Remove 4; Remove 26; Remove 16])
    Vazio = Retorna arvore_de_cinco /\
  abb_estrita arvore_de_cinco /\ balanceada arvore_de_cinco /\
  cache_consistente arvore_de_cinco /\
  __minimo (No 20 (No 15 Vazio Vazio 0) (No 25 Vazio Vazio 0) 1)
    = Some (No 15 Vazio Vazio 0) /\
  __sucessor arvore_de_cinco
    (No 20 (No 15 Vazio Vazio 0) (No 25 Vazio Vazio 0) 1)
    = Some (No 25 Vazio Vazio 0) /\
  remove arvore_de_cinco 10 =
    Retorna (No 25 (No 5 Vazio Vazio 0) (No 20 (No 15 Vazio Vazio 0) Vazio 1) 2) /\
  exibe_pre_ordem (arvore_apos (remove arvore_de_cinco 10))
    = "(25 (5) (20 (15)))"%string.
Proof.
  unfold arvore_de_cinco, todas. cbn. concreto.
Qed.

(** C2, as stated, fails: after [insere 10], [insere 10], [insere 11] the
    left rotation leaves a key 10 in the left subtree of a root that holds
    10, so the left keys are not strictly below the key of the node. *)
Lemma ordem_estrita_falha_com_chaves_iguais :
  executa (insere_todos [10; 10; 11]) Vazio
    = Retorna (No 10 (No 10 Vazio Vazio 0) (No 11 Vazio Vazio 1) 1) /\
  ~ (Sorted Z.le (em_ordem (No 10 (No 10 Vazio Vazio 0) (No 11 Vazio Vazio 1) 1)) /\
     abb_estrita (No 10 (No 10 Vazio Vazio 0) (No 11 Vazio Vazio 1) 1)).
Proof.
  split; [reflexivity|].
  intros [_ [H _]]. unfold todas in H. simpl in H.
  apply Forall_inv in H. lia.
Qed.

(** C2 (amended).  For every tree produced from the empty tree by a finite
    sequence of insert and delete calls that return, none of the deletes
    reaching a node that has both children, the in-order traversal is
    non-decreasing: for every node, all keys in its left subtree are [<=] its
    key and all keys in its right subtree are [>=] its key. *)
Theorem ordem_preservada cs t :
  sem_copia_de_sucessor cs Vazio = true ->
  executa cs Vazio = Retorna t ->
  Sorted Z.le (em_ordem t) /\ abb t.
Proof.
  intros Hs Hx.
  assert (H : StronglySorted Z.le (em_ordem t)).
  { apply (executa_ordenada cs Vazio t); auto. constructor. }
  split; [now apply StronglySorted_Sorted | now apply abb_ordenada].
Qed.

Lemma ordem_preservada_witness :
  sem_copia_de_sucessor
    (insere_todos [10; 10; 11; 5; 12] ++ [Remove 5; Remove 12; Remove 7; Remove 11]) Vazio
    = true /\
  executa
    (insere_todos [10; 10; 11; 5; 12] ++ [Remove 5; Remove 12; Remove 7; Remove 11]) Vazio
    = Retorna (No 10 (No 10 Vazio Vazio 0) Vazio 1) /\
  Sorted Z.le (em_ordem (No 10 (No 10 Vazio Vazio 0) Vazio 1)) /\
  abb (No 10 (No 10 Vazio Vazio 0) Vazio 1).
Proof.
  split; [reflexivity|]. split; [reflexivity|].
  apply (ordem_preservada
           (insere_todos [10; 10; 11; 5; 12] ++ [Remove 5; Remove 12; Remove 7; Remove 11]));
    reflexivity.
Defined.

(** C3 (the code departs from the claim).  [(10 (5) (12))] satisfies the
    invariants and is reached by public calls; [remove 10] finds both
    children present, [__sucessor] of the right child is [None], and reading
    its key raises [AttributeError]: the call does not return, and the tree
    stays as it was.  In the same way [insere 10] raises on [(10 (10))],
    inside the right rotation of a right child that has no left child. *)
Theorem remove_levanta_em_no_com_dois_filhos :
  executa (insere_todos [10; 5; 12] ++ [Remove 4; Remove 13]) Vazio
    = Retorna arvore_de_tres /\
  abb_estrita arvore_de_tres /\ balanceada arvore_de_tres /\
  cache_consistente arvore_de_tres /\
  __sucessor arvore_de_tres (No 12 Vazio Vazio 0) = Some Vazio /\
  remove arvore_de_tres 10 = Levanta arvore_de_tres /\
  executa (insere_todos [10; 10] ++ [Remove 11]) Vazio
    = Retorna arvore_de_dois_iguais /\
  abb_estrita arvore_de_dois_iguais /\ balanceada arvore_de_dois_iguais /\
  cache_consistente arvore_de_dois_iguais /\
  insere arvore_de_dois_iguais 10
    = Levanta (No 10 Vazio (No 10 Vazio (No 10 Vazio Vazio 1) 1) 2).
Proof.
  unfold arvore_de_tres, arvore_de_dois_iguais. cbn. concreto.
Qed.

(** C4 (the code departs from the claim).  [insere 10] on the empty tree
    returns a leaf whose cached height is the dataclass default 1, while
    [1 + max(-1, -1)] is 0. *)
Theorem folha_nova_tem_altura_atributo_1 :
  insere Vazio 10 = Retorna (No 10 Vazio Vazio 1) /\
  altura_em_cache (No 10 Vazio Vazio 1) = 1 /\
  1 + Z.max (altura Vazio) (altura Vazio) = 0 /\
  ~ cache_consistente (No 10 Vazio Vazio 1).
Proof.
  repeat split. cbn. intros [H _]. lia.
Qed.

(** C5, as stated, fails: on the leaf that [insere 10] creates, [altura]
    returns 0 while the cached field holds 1. *)
Lemma altura_nao_le_o_cache :
  insere Vazio 10 = Retorna (No_novo 10) /\
  altura (No_novo 10) = 0 /\
  altura_em_cache (No_novo 10) = 1 /\
  altura (No_novo 10) <> altura_em_cache (No_novo 10).
Proof.
  repeat split. cbn. lia.
Qed.

(** C5 (amended).  [altura] returns -1 for an absent node; for a present
    node it recomputes [1 + max(altura(esquerda), altura(direita))] from the
    children and does not read the cached field; its value is the cached
    field whenever every node of the subtree has a consistent cache. *)
Theorem altura_recalcula t :
  altura Vazio = -1 /\
  altura t =
    match t with
    | Vazio => -1
    | No _ e d _ => 1 + Z.max (altura e) (altura d)
    end /\
  (cache_consistente t -> altura t = altura_em_cache t).
Proof.
  split; [reflexivity|]. split; [now destruct t|].
  apply altura_le_cache.
Qed.

Lemma altura_recalcula_witness :
  cache_consistente arvore_de_cinco /\
  altura arvore_de_cinco = altura_em_cache arvore_de_cinco.
Proof.
  assert (H : cache_consistente arvore_de_cinco)
    by (unfold arvore_de_cinco; simpl; lia).
  split; [exact H|].
  exact (proj2 (proj2 (altura_recalcula arvore_de_cinco)) H).
Defined.




(** C7 (the code departs from the claim).  [_insere] takes the right-right
    case only when the key is strictly above the key of the right child,
    while an equal key has gone to the right of it.  After
    [insere] of 10, 5, 20, 15, 25 and 20 the node that holds the first 20
    has no left child and a right subtree of height 1: its balance factor
    is -2. *)
Theorem insere_chave_igual_desbalanceia :
  executa (insere_todos [10; 5; 20; 15; 25; 20]) Vazio
    = Retorna
        (No 15 (No 10 (No 5 Vazio Vazio 1) Vazio 1)
           (No 20 Vazio (No 25 (No 20 Vazio Vazio 1) Vazio 1) 2) 3) /\
  fator_balanceamento (No 20 Vazio (No 25 (No 20 Vazio Vazio 1) Vazio 1) 2)
    = -2 /\
  ~ balanceada
      (No 15 (No 10 (No 5 Vazio Vazio 1) Vazio 1)
         (No 20 Vazio (No 25 (No 20 Vazio Vazio 1) Vazio 1) 2) 3).
Proof.
  split; [reflexivity|]. split; [reflexivity|].
  cbn. lia.
Qed.

(** C8.  [insere] descends left when the key is below the key of the
    node and right otherwise, an equal key included: the in-order sequence
    after the call is that of the left subtree after the insertion, the
    node and the right subtree, or that of the left subtree, the node and
    the right subtree after the insertion.  Every call leaves exactly one
    more node in the tree, whether or not the key was there, and also when
    the rebalancing that follows raises. *)
Theorem insere_desce_e_acrescenta_um_no t k :
  em_ordem (arvore_apos (insere t k)) =
    match t with
    | Vazio => [k]
    | No c e d _ =>
        if k <? c then em_ordem (arvore_apos (insere e k)) ++ c :: em_ordem d
        else em_ordem e ++ c :: em_ordem (arvore_apos (insere d k))
    end /\
  tamanho (arvore_apos (insere t k)) = S (tamanho t).
Proof.
  split.
  - destruct t as [|c e d a]; [reflexivity|].
    apply _insere_em_ordem_no.
  - rewrite !tamanho_em_ordem. unfold insere.
    now rewrite (Permutation_length (_insere_permuta t k)).
Qed.

(** C9.  For every balanced tree and every key that no node holds,
    [remove] returns and the pre-order text after the call is the text
    before it. *)
Theorem remove_ausente_nao_altera_texto t k :
  balanceada t -> ~ In k (pre_ordem t) ->
  exists t',
    remove t k = Retorna t' /\ exibe_pre_ordem t' = exibe_pre_ordem t.
Proof.
  intros B A.
  destruct (_remove_ausente t [] k B A) as (t' & R & F).
  exists t'. split; [exact R|].
  unfold exibe_pre_ordem.
  now rewrite <- (_exibe_pre_ordem_sem_cache t'), F, _exibe_pre_ordem_sem_cache.
Qed.

Lemma remove_ausente_nao_altera_texto_witness :
  balanceada arvore_de_sete /\ ~ In 15 (pre_ordem arvore_de_sete) /\
  exists t',
    remove arvore_de_sete 15 = Retorna t' /\
    exibe_pre_ordem t' = exibe_pre_ordem arvore_de_sete.
Proof.
  assert (B : balanceada arvore_de_sete)
    by (unfold arvore_de_sete; simpl; lia).
  assert (A : ~ In 15 (pre_ordem arvore_de_sete))
    by (unfold arvore_de_sete; simpl; lia).
  split; [exact B|]. split; [exact A|].
  exact (remove_ausente_nao_altera_texto arvore_de_sete 15 B A).
Defined.

(** C10.  On the empty tree [exibe_pre_ordem] returns the empty string. *)
Theorem exibe_pre_ordem_da_arvore_vazia :
  vazia Vazio = true /\ exibe_pre_ordem Vazio = EmptyString.
Proof.
  split; reflexivity.
Qed.

(** * Further properties of the code *)

(** ** Rotations *)

Lemma rotacao_direita_alturas t t' :
  rotacao_direita t = Some t' ->
  altura_em_cache t' = altura t' /\
  altura_em_cache (direita_de t') = altura (direita_de t').
Proof.
  destruct t as [|c [|cc ce cd ca] d a]; simpl; try discriminate.
  intros H; injection H as <-. split; reflexivity.
Qed.

Lemma rotacao_esquerda_alturas t t' :
  rotacao_esquerda t = Some t' ->
  altura_em_cache t' = altura t' /\
  altura_em_cache (esquerda_de t') = altura (esquerda_de t').
Proof.
  destruct t as [|c e [|cc ce cd ca] a]; simpl; try discriminate.
  intros H; injection H as <-. split; reflexivity.
Qed.

Lemma rotacao_direita_desfeita t t' :
  rotacao_direita t = Some t' ->
  exists t'', rotacao_esquerda t' = Some t'' /\ sem_cache t'' = sem_cache t.
Proof.
  destruct t as [|c [|cc ce cd ca] d a]; simpl; try discriminate.
  intros H; injection H as <-. eexists. split; reflexivity.
Qed.

Lemma rotacao_esquerda_desfeita t t' :
  rotacao_esquerda t = Some t' ->
  exists t'', rotacao_direita t' = Some t'' /\ sem_cache t'' = sem_cache t.
Proof.
  destruct t as [|c e [|cc ce cd ca] a]; simpl; try discriminate.
  intros H; injection H as <-. eexists. split; reflexivity.
Qed.

(** ** Search *)

Lemma _buscar_chave t k :
  _buscar t k = Vazio \/ exists e d a, _buscar t k = No k e d a.
Proof.
  induction t as [|c e IHe d IHd a]; simpl; [now left|].
  destruct (Z.eqb_spec c k) as [->|N].
  - right. now exists e, d, a.
  - destruct (k <? c); assumption.
Qed.

Lemma _buscar_na_arvore t k :
  _buscar t k <> Vazio -> In k (pre_ordem t).
Proof.
  induction t as [|c e IHe d IHd a]; simpl; [congruence|].
  destruct (Z.eqb_spec c k) as [->|N]; [now left|].
  intros H. right. apply in_or_app.
  destruct (k <? c); [left | right]; auto.
Qed.

Lemma em_ordem_In t k : In k (em_ordem t) <-> In k (pre_ordem t).
Proof.
  split; apply Permutation_in;
    [|apply Permutation_sym]; apply em_ordem_pre_ordem.
Qed.

Lemma _buscar_completo t k :
  abb t -> In k (pre_ordem t) -> _buscar t k <> Vazio.
Proof.
  induction t as [|c e IHe d IHd a]; simpl; [tauto|].
  intros (Fe & Fd & Ae & Ad) H.
  destruct (Z.eqb_spec c k) as [->|N]; [congruence|].
  destruct H as [H|H]; [congruence|].
  apply in_app_or in H.
  unfold todas in Fe, Fd. rewrite Forall_forall in Fe, Fd.
  destruct (Z.ltb_spec k c) as [L|L].
  - apply IHe; [assumption|]. destruct H as [H|H]; [assumption|].
    apply em_ordem_In in H. apply Fd in H. lia.
  - apply IHd; [assumption|]. destruct H as [H|H]; [|assumption].
    apply em_ordem_In in H. apply Fe in H. lia.
Qed.

(** ** Minimum *)

Lemma __minimo_primeiro_no t :
  t <> Vazio ->
  exists m r a,
    __minimo t = Some (No m Vazio r a) /\ hd_error (em_ordem t) = Some m.
Proof.
  induction t as [|c e IHe d IHd a]; [congruence|]. intros _.
  destruct e as [|ce ee ed ea].
  - exists c, d, a. split; reflexivity.
  - destruct IHe as (m & r & a' & M & H); [congruence|].
    exists m, r, a'. split; [exact M|].
    simpl em_ordem in *.
    destruct (em_ordem ee ++ ce :: em_ordem ed); [discriminate|exact H].
Qed.

(** ** Insertion of a key that no node holds keeps the balance *)

Lemma altura_min t : -1 <= altura t.
Proof.
  induction t; cbn [altura]; lia.
Qed.

Lemma rebalanceia_insere_equilibrado k c e d a :
  -1 <= altura e - altura d <= 1 ->
  rebalanceia_insere k (No c e d a) = Retorna (No c e d a).
Proof.
  intros H. unfold rebalanceia_insere, fator_balanceamento.
  replace (altura e - altura d >? 1) with false
    by (symmetry; rewrite Z.gtb_ltb; apply Z.ltb_ge; lia).
  now replace (altura e - altura d <? -1) with false
    by (symmetry; apply Z.ltb_ge; lia).
Qed.

Lemma rebalanceia_insere_pesa_esquerda k c e d a :
  balanceada e -> balanceada d ->
  altura e - altura d = 2 ->
  (forall ce ee ed ae, e = No ce ee ed ae ->
     k <> ce /\
     (k < ce -> altura ee = altura ed + 1) /\
     (ce < k -> altura ed = altura ee + 1)) ->
  exists t',
    rebalanceia_insere k (No c e d a) = Retorna t' /\
    balanceada t' /\ altura t' = altura d + 2.
Proof.
  intros Be Bd H G.
  destruct e as [|ce ee ed ae];
    [pose proof (altura_min d); cbn [altura] in H; lia|].
  destruct (G ce ee ed ae eq_refl) as (N & G1 & G2). clear G.
  unfold rebalanceia_insere, fator_balanceamento.
  replace (altura (No ce ee ed ae) - altura d >? 1) with true
    by (symmetry; rewrite Z.gtb_ltb; apply Z.ltb_lt; lia).
  cbn [altura balanceada] in Be, H. destruct Be as (Bn & Bee & Bed).
  destruct (Z.ltb_spec k ce) as [L|L].
  - specialize (G1 L). unfold retorna_rotacao. cbn [rotacao_direita].
    eexists. split; [reflexivity|].
    cbn [altura balanceada]. repeat split; auto; lia.
  - assert (L' : ce < k) by lia. specialize (G2 L').
    destruct ed as [|x l r ax];
      [pose proof (altura_min ee); cbn [altura] in G2; lia|].
    cbn [altura balanceada] in Bed, G2, H. destruct Bed as (Bx & Bl & Br).
    unfold retorna_rotacao. cbn [rotacao_esquerda rotacao_direita].
    eexists. split; [reflexivity|].
    cbn [altura balanceada]. repeat split; auto; lia.
Qed.

Lemma rebalanceia_insere_pesa_direita k c e d a :
  balanceada e -> balanceada d ->
  altura d - altura e = 2 ->
  (forall cd de dd ad, d = No cd de dd ad ->
     k <> cd /\
     (k < cd -> altura de = altura dd + 1) /\
     (cd < k -> altura dd = altura de + 1)) ->
  exists t',
    rebalanceia_insere k (No c e d a) = Retorna t' /\
    balanceada t' /\ altura t' = altura e + 2.
Proof.
  intros Be Bd H G.
  destruct d as [|cd de dd ad];
    [pose proof (altura_min e); cbn [altura] in H; lia|].
  destruct (G cd de dd ad eq_refl) as (N & G1 & G2). clear G.
  unfold rebalanceia_insere, fator_balanceamento.
  replace (altura e - altura (No cd de dd ad) >? 1) with false
    by (symmetry; rewrite Z.gtb_ltb; apply Z.ltb_ge; lia).
  replace (altura e - altura (No cd de dd ad) <? -1) with true
    by (symmetry; apply Z.ltb_lt; lia).
  cbn [altura balanceada] in Bd, H. destruct Bd as (Bn & Bde & Bdd).
  rewrite Z.gtb_ltb. destruct (Z.ltb_spec cd k) as [L|L].
  - specialize (G2 L). unfold retorna_rotacao. cbn [rotacao_esquerda].
    eexists. split; [reflexivity|].
    cbn [altura balanceada]. repeat split; auto; lia.
  - assert (L' : k < cd) by lia. specialize (G1 L').
    destruct de as [|x l r ax];
      [pose proof (altura_min dd); cbn [altura] in G1; lia|].
    cbn [altura balanceada] in Bde, G1, H. destruct Bde as (Bx & Bl & Br).
    unfold retorna_rotacao. cbn [rotacao_esquerda rotacao_direita].
    eexists. split; [reflexivity|].
    cbn [altura balanceada]. repeat split; auto; lia.
Qed.

Lemma _insere_balanceada t : forall k,
  balanceada t -> ~ In k (pre_ordem t) ->
  exists t',
    _insere t k = Retorna t' /\ balanceada t' /\
    (altura t' = altura t \/
     (altura t' = altura t + 1 /\
      forall c e d a, t = No c e d a ->
        exists e' d' a',
          t' = No c e' d' a' /\
          (k < c -> altura e' = altura d' + 1) /\
          (c < k -> altura d' = altura e' + 1))).
Proof.
  induction t as [|c e IHe d IHd a]; intros k B A.
  - exists (No_novo k). split; [reflexivity|].
    split; [cbn; lia|]. right. split; [reflexivity|]. discriminate.
  - cbn [balanceada] in B. destruct B as (Bn & Be & Bd).
    cbn [pre_ordem] in A.
    assert (Ac : k <> c) by (intros ->; apply A; now left).
    assert (Ae : ~ In k (pre_ordem e))
      by (intros H; apply A; right; apply in_or_app; now left).
    assert (Ad : ~ In k (pre_ordem d))
      by (intros H; apply A; right; apply in_or_app; now right).
    pose proof (altura_min e) as Me. pose proof (altura_min d) as Md.
    cbn [_insere]. destruct (Z.ltb_spec k c) as [L|L].
    + destruct (IHe k Be Ae) as (e' & R & Be' & G). rewrite R.
      destruct (Z.eq_dec (altura e' - altura d) 2) as [H2|H2].
      * destruct G as [G|[G1 G2]]; [lia|].
        destruct (rebalanceia_insere_pesa_esquerda k c e' d
                    (1 + Z.max (altura e') (altura d)) Be' Bd H2)
          as (t' & R' & Bt' & Ht').
        { intros ce ee ed ae ->.
          destruct e as [|ce0 ee0 ed0 ae0]; [cbn [altura] in *; lia|].
          destruct (G2 _ _ _ _ eq_refl) as (e1 & d1 & a1 & E & K1 & K2).
          injection E as -> -> -> ->.
          split; [|now split].
          intros ->. apply Ae. now left. }
        exists t'. split; [exact R'|]. split; [exact Bt'|].
        left. cbn [altura]. lia.
      * rewrite rebalanceia_insere_equilibrado by (destruct G; lia).
        eexists. split; [reflexivity|].
        split; [cbn [balanceada]; repeat split; auto; destruct G; lia|].
        cbn [altura].
        destruct (Z.eq_dec (Z.max (altura e') (altura d))
                    (Z.max (altura e) (altura d))) as [E|E];
          [left; lia|].
        right. split; [destruct G; lia|].
        intros c0 e0 d0 a0 Q. injection Q as <- <- <- <-.
        eexists _, _, _. split; [reflexivity|].
        split; [destruct G; lia | lia].
    + assert (L' : c < k) by lia.
      destruct (IHd k Bd Ad) as (d' & R & Bd' & G). rewrite R.
      destruct (Z.eq_dec (altura d' - altura e) 2) as [H2|H2].
      * destruct G as [G|[G1 G2]]; [lia|].
        destruct (rebalanceia_insere_pesa_direita k c e d'
                    (1 + Z.max (altura e) (altura d')) Be Bd' H2)
          as (t' & R' & Bt' & Ht').
        { intros cd de dd ad ->.
          destruct d as [|cd0 de0 dd0 ad0]; [cbn [altura] in *; lia|].
          destruct (G2 _ _ _ _ eq_refl) as (e1 & d1 & a1 & E & K1 & K2).
          injection E as -> -> -> ->.
          split; [|now split].
          intros ->. apply Ad. now left. }
        exists t'. split; [exact R'|]. split; [exact Bt'|].
        left. cbn [altura]. lia.
      * rewrite rebalanceia_insere_equilibrado by (destruct G; lia).
        eexists. split; [reflexivity|].
        split; [cbn [balanceada]; repeat split; auto; destruct G; lia|].
        cbn [altura].
        destruct (Z.eq_dec (Z.max (altura e) (altura d'))
                    (Z.max (altura e) (altura d))) as [E|E];
          [left; lia|].
        right. split; [destruct G; lia|].
        intros c0 e0 d0 a0 Q. injection Q as <- <- <- <-.
        eexists _, _, _. split; [reflexivity|].
        split; [lia | destruct G; lia].
Qed.

(** ** Removal keeps the balance *)

Lemma rebalanceia_remove_ok c e d a :
  balanceada e -> balanceada d ->
  -2 <= altura e - altura d <= 2 ->
  exists t',
    rebalanceia_remove (No c e d a) = Retorna t' /\ balanceada t' /\
    (altura t' = 1 + Z.max (altura e) (altura d) \/
     (altura t' = Z.max (altura e) (altura d) /\
      (altura e - altura d = 2 \/ altura e - altura d = -2))).
Proof.
  intros Be Bd H.
  pose proof (altura_min e) as Me. pose proof (altura_min d) as Md.
  destruct (Z.eq_dec (altura e - altura d) 2) as [H2|H2].
  - destruct e as [|ce ee ed ae]; [cbn [altura] in H2; lia|].
    unfold rebalanceia_remove.
    cbn [fator_balanceamento].
    replace (altura (No ce ee ed ae) - altura d >? 1) with true
      by (symmetry; rewrite Z.gtb_ltb; apply Z.ltb_lt; lia).
    cbn [altura balanceada] in Be, H2. destruct Be as (Bn & Bee & Bed).
    pose proof (altura_min ee). pose proof (altura_min ed).
    rewrite Z.geb_leb. destruct (Z.leb_spec 0 (altura ee - altura ed)) as [L|L].
    + unfold retorna_rotacao. cbn [rotacao_direita].
      eexists. split; [reflexivity|].
      cbn [altura balanceada]. repeat split; auto; lia.
    + destruct ed as [|x l r ax]; [cbn [altura] in *; lia|].
      cbn [altura balanceada] in Bed, L, H2, Bn. destruct Bed as (Bx & Bl & Br).
      unfold retorna_rotacao. cbn [rotacao_esquerda rotacao_direita].
      eexists. split; [reflexivity|].
      cbn [altura balanceada]. repeat split; auto; lia.
  - destruct (Z.eq_dec (altura e - altura d) (-2)) as [H3|H3].
    + destruct d as [|cd de dd ad]; [cbn [altura] in H3; lia|].
      unfold rebalanceia_remove.
      cbn [fator_balanceamento].
      replace (altura e - altura (No cd de dd ad) >? 1) with false
        by (symmetry; rewrite Z.gtb_ltb; apply Z.ltb_ge; lia).
      replace (altura e - altura (No cd de dd ad) <? -1) with true
        by (symmetry; apply Z.ltb_lt; lia).
      cbn [altura balanceada] in Bd, H3. destruct Bd as (Bn & Bde & Bdd).
      pose proof (altura_min de). pose proof (altura_min dd).
      destruct (Z.leb_spec (altura de - altura dd) 0) as [L|L].
      * unfold retorna_rotacao. cbn [rotacao_esquerda].
        eexists. split; [reflexivity|].
        cbn [altura balanceada]. repeat split; auto; lia.
      * destruct de as [|x l r ax]; [cbn [altura] in *; lia|].
        cbn [altura balanceada] in Bde, L, H3, Bn.
        destruct Bde as (Bx & Bl & Br).
        unfold retorna_rotacao. cbn [rotacao_esquerda rotacao_direita].
        eexists. split; [reflexivity|].
        cbn [altura balanceada]. repeat split; auto; lia.
    + rewrite rebalanceia_remove_balanceado by lia.
      eexists. split; [reflexivity|].
      split; [cbn [balanceada]; repeat split; auto; lia|].
      left. reflexivity.
Qed.

Lemma _remove_balanceada t : forall acima k,
  balanceada t ->
  match _remove acima t k with
  | Retorna t' =>
      balanceada t' /\ (altura t' = altura t \/ altura t' = altura t - 1)
  | Levanta s => balanceada s /\ altura s = altura t
  end.
Proof.
  induction t as [|c e IHe d IHd a]; intros acima k B.
  - cbn. split; [exact I | now left].
  - cbn [balanceada] in B. destruct B as (Bn & Be & Bd).
    pose proof (altura_min e) as Me. pose proof (altura_min d) as Md.
    assert (Dir : forall acima' k' c',
      match
        match _remove acima' d k' with
        | Retorna d' =>
            rebalanceia_remove (No c' e d' (1 + Z.max (altura e) (altura d')))
        | Levanta d' => Levanta (No c' e d' a)
        end
      with
      | Retorna t' =>
          balanceada t' /\
          (altura t' = altura (No c e d a) \/
           altura t' = altura (No c e d a) - 1)
      | Levanta s => balanceada s /\ altura s = altura (No c e d a)
      end).
    { intros acima' k' c'. specialize (IHd acima' k' Bd).
      destruct (_remove acima' d k') as [d'|d'].
      - destruct IHd as (Bd' & Hd').
        destruct (rebalanceia_remove_ok c' e d'
                    (1 + Z.max (altura e) (altura d')) Be Bd')
          as (t' & R & Bt' & Ht'); [lia|].
        rewrite R. split; [exact Bt'|]. cbn [altura]. lia.
      - destruct IHd as (Bd' & Hd').
        cbn [balanceada altura]. rewrite Hd'. repeat split; auto; lia. }
    cbn [_remove]. destruct (k <? c).
    + specialize (IHe (DesceEsquerda c d a :: acima) k Be).
      destruct (_remove (DesceEsquerda c d a :: acima) e k) as [e'|e'].
      * destruct IHe as (Be' & He').
        destruct (rebalanceia_remove_ok c e' d
                    (1 + Z.max (altura e') (altura d)) Be' Bd)
          as (t' & R & Bt' & Ht'); [lia|].
        rewrite R. split; [exact Bt'|]. cbn [altura]. lia.
      * destruct IHe as (Be' & He').
        cbn [balanceada altura]. rewrite He'. repeat split; auto; lia.
    + destruct (k >? c); [apply Dir|].
      destruct e as [|ce ee ed ae].
      * split; [exact Bd|]. cbn [altura]. lia.
      * destruct d as [|cd de dd ad].
        -- split; [exact Be|]. cbn [altura] in *. lia.
        -- destruct (__sucessor _ _) as [[|tc te td ta]|].
           ++ split; [exact (conj Bn (conj Be Bd)) | reflexivity].
           ++ apply Dir.
           ++ split; [exact (conj Bn (conj Be Bd)) | reflexivity].
Qed.

Lemma _remove_retorna t : forall acima k,
  balanceada t -> dois_filhos t k = false ->
  exists t', _remove acima t k = Retorna t'.
Proof.
  induction t as [|c e IHe d IHd a]; intros acima k B D.
  - now exists Vazio.
  - cbn [balanceada] in B. destruct B as (Bn & Be & Bd).
    cbn [dois_filhos] in D. cbn [_remove]. destruct (k <? c).
    + destruct (IHe (DesceEsquerda c d a :: acima) k Be D) as (e' & R).
      pose proof (_remove_balanceada e (DesceEsquerda c d a :: acima) k Be)
        as P.
      rewrite R in *. destruct P as (Be' & He').
      destruct (rebalanceia_remove_ok c e' d
                  (1 + Z.max (altura e') (altura d)) Be' Bd)
        as (t' & R' & _); [lia|].
      now exists t'.
    + destruct (k >? c).
      * destruct (IHd (DesceDireita c e a :: acima) k Bd D) as (d' & R).
        pose proof (_remove_balanceada d (DesceDireita c e a :: acima) k Bd)
          as P.
        rewrite R in *. destruct P as (Bd' & Hd').
        destruct (rebalanceia_remove_ok c e d'
                    (1 + Z.max (altura e) (altura d')) Be Bd')
          as (t' & R' & _); [lia|].
        now exists t'.
      * destruct e as [|ce ee ed ae]; [now exists d|].
        destruct d as [|cd de dd ad]; [|discriminate].
        now eexists.
Qed.

(** ** Removal where the node found has at most one child *)

Lemma _remove_simples_em_ordem t : forall acima k,
  dois_filhos t k = false ->
  (_buscar t k = Vazio ->
   em_ordem (arvore_apos (_remove acima t k)) = em_ordem t) /\
  (_buscar t k <> Vazio ->
   exists l1 l2,
     em_ordem t = l1 ++ k :: l2 /\
     em_ordem (arvore_apos (_remove acima t k)) = l1 ++ l2).
Proof.
  induction t as [|c e IHe d IHd a]; intros acima k D.
  - split; [reflexivity|]. cbn. congruence.
  - rewrite _remove_em_ordem_no. cbn [dois_filhos] in D. cbn [_buscar].
    rewrite Z.gtb_ltb in *.
    destruct (Z.eqb_spec c k) as [->|N].
    + rewrite Z.ltb_irrefl in *. split; [discriminate|]. intros _.
      destruct e as [|ce ee ed ae].
      * exists [], (em_ordem d). split; reflexivity.
      * destruct d as [|cd de dd ad]; [|discriminate].
        exists (em_ordem (No ce ee ed ae)), []. split; [reflexivity|].
        now rewrite app_nil_r.
    + destruct (Z.ltb_spec k c) as [L|L].
      * destruct (IHe (DesceEsquerda c d a :: acima) k D) as [I1 I2].
        split.
        -- intros H. cbn [em_ordem]. now rewrite I1.
        -- intros H. destruct (I2 H) as (l1 & l2 & E1 & E2).
           exists l1, (l2 ++ c :: em_ordem d). cbn [em_ordem].
           rewrite E1, E2, <- !app_assoc. split; reflexivity.
      * replace (c <? k) with true in * by (symmetry; apply Z.ltb_lt; lia).
        destruct (IHd (DesceDireita c e a :: acima) k D) as [I1 I2].
        split.
        -- intros H. cbn [em_ordem]. now rewrite I1.
        -- intros H. destruct (I2 H) as (l1 & l2 & E1 & E2).
           exists (em_ordem e ++ c :: l1), l2. cbn [em_ordem].
           rewrite E1, E2, <- !app_assoc. split; reflexivity.
Qed.

Lemma ordenada_estrita_app (l1 l2 : list Z) (c : Z) :
  StronglySorted Z.lt (l1 ++ c :: l2) <->
  StronglySorted Z.lt l1 /\ StronglySorted Z.lt l2 /\
  Forall (fun x => x < c) l1 /\ Forall (fun x => c < x) l2.
Proof.
  induction l1 as [|x l1 IH]; simpl.
  - split.
    + intros H. apply StronglySorted_inv in H as [H1 H2].
      repeat split; auto. constructor.
    + intros (_ & H1 & _ & H2). now constructor.
  - split.
    + intros H. apply StronglySorted_inv in H as [H1 H2].
      apply IH in H1 as (S1 & S2 & F1 & F2).
      apply Forall_app in H2 as [G1 G2].
      apply Forall_cons_iff in G2 as [G2 G3].
      repeat split; auto; now constructor.
    + intros (S1 & S2 & F1 & F2).
      apply StronglySorted_inv in S1 as [S1 G1].
      apply Forall_cons_iff in F1 as [Hx F1].
      constructor.
      * apply IH. auto.
      * apply Forall_app. split; [assumption|].
        constructor; [assumption|].
        eapply Forall_impl; [|exact F2]. simpl. intros. lia.
Qed.

Lemma ordenada_estrita_ordenada l :
  StronglySorted Z.lt l -> StronglySorted Z.le l.
Proof.
  induction 1 as [|x l S IH F]; constructor; auto.
  eapply Forall_impl; [|exact F]. simpl. intros. lia.
Qed.

Lemma ordenada_estrita_unica (l1 l2 : list Z) (k : Z) :
  StronglySorted Z.lt (l1 ++ k :: l2) -> ~ In k (l1 ++ l2).
Proof.
  intros H. apply ordenada_estrita_app in H as (_ & _ & F1 & F2).
  rewrite Forall_forall in F1, F2.
  intros I. apply in_app_or in I as [I|I]; [apply F1 in I | apply F2 in I]; lia.
Qed.

Lemma _remove_simples_some t k :
  StronglySorted Z.lt (em_ordem t) ->
  dois_filhos t k = false ->
  ~ In k (em_ordem (arvore_apos (_remove [] t k))).
Proof.
  intros S D.
  destruct (_remove_simples_em_ordem t [] k D) as [I1 I2].
  destruct (_buscar_chave t k) as [B|(e & d & a & B)].
  - rewrite (I1 B). intros I.
    apply (_buscar_completo t k); [| now apply em_ordem_In | exact B].
    apply abb_ordenada. now apply ordenada_estrita_ordenada.
  - destruct I2 as (l1 & l2 & E1 & E2); [congruence|].
    rewrite E2. apply ordenada_estrita_unica. now rewrite <- E1.
Qed.

(** ** Cached heights after calls that return *)

Lemma rotacao_direita_cache t t' :
  rotacao_direita t = Some t' ->
  cache_salvo_folhas t -> cache_salvo_folhas t'.
Proof.
  destruct t as [|c [|cc ce cd ca] d a]; cbn [rotacao_direita]; try discriminate.
  intros H; injection H as <-.
  cbn [cache_salvo_folhas]. intros (_ & (_ & Ce & Cd) & Cdd).
  repeat split; auto.
Qed.

Lemma rotacao_esquerda_cache t t' :
  rotacao_esquerda t = Some t' ->
  cache_salvo_folhas t -> cache_salvo_folhas t'.
Proof.
  destruct t as [|c e [|cc ce cd ca] a]; cbn [rotacao_esquerda]; try discriminate.
  intros H; injection H as <-.
  cbn [cache_salvo_folhas]. intros (_ & Ce & (_ & Cce & Ccd)).
  repeat split; auto.
Qed.

Lemma rebalanceia_insere_cache k c e d t' :
  cache_salvo_folhas e -> cache_salvo_folhas d ->
  rebalanceia_insere k (No c e d (1 + Z.max (altura e) (altura d)))
    = Retorna t' ->
  cache_salvo_folhas t'.
Proof.
  intros Ce Cd.
  assert (Cn : forall e0 d0, cache_salvo_folhas e0 -> cache_salvo_folhas d0 ->
            forall a0, a0 = 1 + Z.max (altura e0) (altura d0) ->
            cache_salvo_folhas (No c e0 d0 a0))
    by (intros; cbn [cache_salvo_folhas]; auto).
  unfold rebalanceia_insere, retorna_rotacao.
  destruct (_ >? 1).
  - destruct e as [|ce ee ed ae]; [discriminate|].
    destruct (k <? ce).
    + destruct (rotacao_direita _) as [r|] eqn:R; [|discriminate].
      intros H; injection H as <-.
      eapply rotacao_direita_cache; [exact R|]. now apply Cn.
    + destruct (rotacao_esquerda (No ce ee ed ae)) as [e'|] eqn:R1;
        [|discriminate].
      destruct (rotacao_direita _) as [r|] eqn:R; [|discriminate].
      intros H; injection H as <-.
      destruct e' as [|c1 e1 d1 a1];
        [cbn [rotacao_direita] in R; discriminate|].
      cbn [rotacao_direita] in R. injection R as <-.
      pose proof (rotacao_esquerda_cache _ _ R1 Ce) as C1.
      cbn [cache_salvo_folhas] in C1. destruct C1 as (_ & C2 & C3).
      cbn [cache_salvo_folhas]. repeat split; auto.
  - destruct (_ <? -1).
    + destruct d as [|cd de dd ad]; [discriminate|].
      destruct (k >? cd).
      * destruct (rotacao_esquerda _) as [r|] eqn:R; [|discriminate].
        intros H; injection H as <-.
        eapply rotacao_esquerda_cache; [exact R|]. now apply Cn.
      * destruct (rotacao_direita (No cd de dd ad)) as [d'|] eqn:R1;
          [|discriminate].
        destruct (rotacao_esquerda _) as [r|] eqn:R; [|discriminate].
        intros H; injection H as <-.
        destruct d' as [|c1 e1 d1 a1];
          [cbn [rotacao_esquerda] in R; destruct e; discriminate|].
        cbn [rotacao_esquerda] in R. injection R as <-.
        pose proof (rotacao_direita_cache _ _ R1 Cd) as C1.
        cbn [cache_salvo_folhas] in C1. destruct C1 as (_ & C2 & C3).
        cbn [cache_salvo_folhas]. repeat split; auto.
    + intros H; injection H as <-. now apply Cn.
Qed.

Lemma rebalanceia_remove_cache c e d t' :
  cache_salvo_folhas e -> cache_salvo_folhas d ->
  rebalanceia_remove (No c e d (1 + Z.max (altura e) (altura d)))
    = Retorna t' ->
  cache_salvo_folhas t'.
Proof.
  intros Ce Cd.
  assert (Cn : forall e0 d0, cache_salvo_folhas e0 -> cache_salvo_folhas d0 ->
            forall a0, a0 = 1 + Z.max (altura e0) (altura d0) ->
            cache_salvo_folhas (No c e0 d0 a0))
    by (intros; cbn [cache_salvo_folhas]; auto).
  unfold rebalanceia_remove, retorna_rotacao.
  destruct (_ >? 1).
  - destruct (_ >=? 0).
    + destruct (rotacao_direita _) as [r|] eqn:R; [|discriminate].
      intros H; injection H as <-.
      eapply rotacao_direita_cache; [exact R|]. now apply Cn.
    + destruct (rotacao_esquerda e) as [e'|] eqn:R1; [|discriminate].
      destruct (rotacao_direita _) as [r|] eqn:R; [|discriminate].
      intros H; injection H as <-.
      destruct e' as [|c1 e1 d1 a1];
        [cbn [rotacao_direita] in R; discriminate|].
      cbn [rotacao_direita] in R. injection R as <-.
      pose proof (rotacao_esquerda_cache _ _ R1 Ce) as C1.
      cbn [cache_salvo_folhas] in C1. destruct C1 as (_ & C2 & C3).
      cbn [cache_salvo_folhas]. repeat split; auto.
  - destruct (_ <? -1).
    + destruct (_ <=? 0).
      * destruct (rotacao_esquerda _) as [r|] eqn:R; [|discriminate].
        intros H; injection H as <-.
        eapply rotacao_esquerda_cache; [exact R|]. now apply Cn.
      * destruct (rotacao_direita d) as [d'|] eqn:R1; [|discriminate].
        destruct (rotacao_esquerda _) as [r|] eqn:R; [|discriminate].
        intros H; injection H as <-.
        destruct d' as [|c1 e1 d1 a1];
          [cbn [rotacao_esquerda] in R; destruct e; discriminate|].
        cbn [rotacao_esquerda] in R. injection R as <-.
        pose proof (rotacao_direita_cache _ _ R1 Cd) as C1.
        cbn [cache_salvo_folhas] in C1. destruct C1 as (_ & C2 & C3).
        cbn [cache_salvo_folhas]. repeat split; auto.
    + intros H; injection H as <-. now apply Cn.
Qed.

Lemma _insere_cache t : forall k t',
  cache_salvo_folhas t -> _insere t k = Retorna t' -> cache_salvo_folhas t'.
Proof.
  induction t as [|c e IHe d IHd a]; intros k t' C R.
  - injection R as <-. cbn. auto.
  - cbn [cache_salvo_folhas] in C. destruct C as (_ & Ce & Cd).
    cbn [_insere] in R. destruct (k <? c).
    + destruct (_insere e k) as [e'|e'] eqn:E; [|discriminate].
      eapply rebalanceia_insere_cache; [| |exact R]; eauto.
    + destruct (_insere d k) as [d'|d'] eqn:E; [|discriminate].
      eapply rebalanceia_insere_cache; [| |exact R]; eauto.
Qed.

Lemma _remove_cache t : forall acima k t',
  cache_salvo_folhas t -> _remove acima t k = Retorna t' ->
  cache_salvo_folhas t'.
Proof.
  induction t as [|c e IHe d IHd a]; intros acima k t' C R.
  - injection R as <-. exact I.
  - cbn [cache_salvo_folhas] in C. destruct C as (_ & Ce & Cd).
    cbn [_remove] in R. destruct (k <? c).
    + destruct (_remove _ e k) as [e'|e'] eqn:E; [|discriminate].
      eapply rebalanceia_remove_cache; [| |exact R]; eauto.
    + destruct (k >? c).
      * destruct (_remove _ d k) as [d'|d'] eqn:E; [|discriminate].
        eapply rebalanceia_remove_cache; [| |exact R]; eauto.
      * destruct e as [|ce ee ed ae]; [now injection R as <-|].
        destruct d as [|cd de dd ad]; [now injection R as <-|].
        destruct (__sucessor _ _) as [[|tc te td ta]|]; try discriminate.
        destruct (_remove _ _ tc) as [d'|d'] eqn:E; [|discriminate].
        eapply rebalanceia_remove_cache; [| |exact R]; eauto.
Qed.

Lemma executa_cache cs : forall t0 t,
  cache_salvo_folhas t0 -> executa cs t0 = Retorna t -> cache_salvo_folhas t.
Proof.
  induction cs as [|c r IH]; intros t0 t C R; cbn [executa] in R.
  - now injection R as <-.
  - destruct (chama t0 c) as [t1|s] eqn:E; [|discriminate].
    apply (IH t1 t); [|exact R].
    destruct c as [k|k]; cbn [chama] in E.
    + eapply _insere_cache; eauto.
    + eapply _remove_cache; eauto.
Qed.

(** ** Height and number of nodes *)

Lemma altura_tamanho t : altura t < Z.of_nat (tamanho t).
Proof.
  induction t as [|c e IHe d IHd a]; cbn [altura tamanho]; lia.
Qed.

Lemma fib_passo n : fib (S (S n)) = (fib (S n) + fib n)%nat.
Proof.
  reflexivity.
Qed.

Lemma fib_monotona n : (fib n <= fib (S n))%nat.
Proof.
  destruct n as [|n]; [cbn; lia|]. rewrite fib_passo. lia.
Qed.

Lemma balanceada_fib t :
  balanceada t ->
  (fib (Z.to_nat (altura t + 3)) <= S (tamanho t))%nat.
Proof.
  induction t as [|c e IHe d IHd a]; [intros _; apply le_n|].
  cbn [balanceada]. intros (Bn & Be & Bd).
  specialize (IHe Be). specialize (IHd Bd).
  pose proof (altura_min e) as Me. pose proof (altura_min d) as Md.
  cbn [altura tamanho].
  destruct (Z.le_gt_cases (altura d) (altura e)) as [L|L].
  - replace (Z.to_nat (1 + Z.max (altura e) (altura d) + 3))
      with (S (S (Z.to_nat (altura e + 2)))) by lia.
    rewrite fib_passo.
    replace (S (Z.to_nat (altura e + 2))) with (Z.to_nat (altura e + 3)) by lia.
    assert (fib (Z.to_nat (altura e + 2)) <= fib (Z.to_nat (altura d + 3)))%nat.
    { destruct (Z.eq_dec (altura d) (altura e)) as [Q|Q].
      - rewrite Q.
        replace (Z.to_nat (altura e + 3)) with (S (Z.to_nat (altura e + 2)))
          by lia.
        apply fib_monotona.
      - replace (altura d + 3) with (altura e + 2) by lia. lia. }
    lia.
  - replace (Z.to_nat (1 + Z.max (altura e) (altura d) + 3))
      with (S (S (Z.to_nat (altura d + 2)))) by lia.
    rewrite fib_passo.
    replace (S (Z.to_nat (altura d + 2))) with (Z.to_nat (altura d + 3)) by lia.
    assert (fib (Z.to_nat (altura d + 2)) <= fib (Z.to_nat (altura e + 3)))%nat.
    { replace (altura e + 3) with (altura d + 2) by lia. lia. }
    lia.
Qed.

(** ** Successor *)

Lemma filtro_acima_vazio c l :
  Forall (fun x => x <= c) l -> filter (fun x => c <? x) l = [].
Proof.
  induction 1 as [|x l H F IH]; [reflexivity|]. cbn [filter].
  now replace (c <? x) with false by (symmetry; apply Z.ltb_ge; lia).
Qed.

Lemma filtro_acima_tudo c l :
  Forall (fun x => c < x) l -> filter (fun x => c <? x) l = l.
Proof.
  induction 1 as [|x l H F IH]; [reflexivity|]. cbn [filter].
  replace (c <? x) with true by (symmetry; apply Z.ltb_lt; lia).
  now rewrite IH.
Qed.

Lemma Forall_abaixo (c x : Z) l :
  x <= c -> Forall (fun y => y < x) l -> Forall (fun y => y <= c) l.
Proof.
  intros H F. eapply Forall_impl; [|exact F]. simpl. intros. lia.
Qed.

Lemma Forall_acima (c x : Z) l :
  c <= x -> Forall (fun y => x < y) l -> Forall (fun y => c < y) l.
Proof.
  intros H F. eapply Forall_impl; [|exact F]. simpl. intros. lia.
Qed.

Lemma desce_sucessor_proximo t : forall c suc,
  StronglySorted Z.lt (em_ordem t) ->
  direita_de (_buscar t c) = Vazio ->
  chave_de (desce_sucessor c t suc) =
  match proximo c (em_ordem t) with
  | Some x => Some x
  | None => chave_de suc
  end.
Proof.
  induction t as [|x e IHe d IHd a]; intros c suc S D; [reflexivity|].
  cbn [em_ordem] in S. apply ordenada_estrita_app in S as (Se & Sd & Fe & Fd).
  cbn [desce_sucessor _buscar em_ordem] in *. unfold proximo in *.
  rewrite filter_app. cbn [filter]. rewrite Z.gtb_ltb.
  destruct (Z.eqb_spec x c) as [->|N].
  - rewrite Z.ltb_irrefl. cbn [direita_de] in D. subst d.
    rewrite (filtro_acima_vazio c (em_ordem e))
      by (apply (Forall_abaixo c c); [lia | assumption]).
    reflexivity.
  - destruct (Z.ltb_spec c x) as [L|L].
    + rewrite (IHe c (No x e d a) Se D). cbn [chave_de].
      now destruct (filter _ (em_ordem e)).
    + replace (x <? c) with true by (symmetry; apply Z.ltb_lt; lia).
      rewrite (filtro_acima_vazio c (em_ordem e))
        by (apply (Forall_abaixo c x); [lia | assumption]).
      apply (IHd c suc Sd D).
Qed.

Lemma _buscar_proximo t : forall c e d a,
  StronglySorted Z.lt (em_ordem t) ->
  _buscar t c = No c e d a -> d <> Vazio ->
  proximo c (em_ordem t) = hd_error (em_ordem d).
Proof.
  induction t as [|x e0 IHe d0 IHd a0]; intros c e d a S B D; [discriminate|].
  cbn [em_ordem] in S. apply ordenada_estrita_app in S as (Se & Sd & Fe & Fd).
  cbn [_buscar em_ordem] in *. unfold proximo in *.
  rewrite filter_app. cbn [filter].
  destruct (Z.eqb_spec x c) as [->|N].
  - injection B as <- <- <-. rewrite Z.ltb_irrefl.
    rewrite (filtro_acima_vazio c (em_ordem e0))
      by (apply (Forall_abaixo c c); [lia | assumption]).
    now rewrite filtro_acima_tudo.
  - destruct (Z.ltb_spec c x) as [L|L].
    + rewrite <- (IHe c e d a Se B D).
      destruct (filter _ (em_ordem e0)) eqn:F; [|reflexivity].
      exfalso. pose proof (IHe c e d a Se B D) as H. rewrite F in H.
      destruct d as [|cd de dd ad]; [congruence|].
      cbn [em_ordem] in H. now destruct (em_ordem de).
    + rewrite (filtro_acima_vazio c (em_ordem e0))
        by (apply (Forall_abaixo c x); [lia | assumption]).
      apply (IHd c e d a Sd B D).
Qed.

Lemma __sucessor_proximo_no t c :
  StronglySorted Z.lt (em_ordem t) -> In c (pre_ordem t) ->
  exists s,
    __sucessor t (_buscar t c) = Some s /\
    chave_de s = proximo c (em_ordem t).
Proof.
  intros S I.
  assert (A : abb t)
    by (apply abb_ordenada; now apply ordenada_estrita_ordenada).
  destruct (_buscar_chave t c) as [B|(e & d & a & B)];
    [now apply _buscar_completo in B|].
  rewrite B. cbn [__sucessor].
  destruct d as [|cd de dd ad] eqn:Ed.
  - eexists. split; [reflexivity|].
    rewrite (desce_sucessor_proximo t c Vazio S) by now rewrite B.
    cbn [chave_de]. now destruct (proximo c (em_ordem t)).
  - destruct (__minimo_primeiro_no (No cd de dd ad)) as (m & r & a' & M & H);
      [congruence|].
    rewrite M. eexists. split; [reflexivity|]. cbn [chave_de].
    rewrite (_buscar_proximo t c e (No cd de dd ad) a S B) by congruence.
    now rewrite H.
Qed.

(** ** Runs of calls *)

Lemma executa_balanceada cs : forall t0 t,
  balanceada t0 ->
  insere_chaves_novas cs t0 = true ->
  executa cs t0 = Retorna t ->
  balanceada t.
Proof.
  induction cs as [|c r IH]; intros t0 t B N R;
    cbn [executa insere_chaves_novas] in *.
  - now injection R as <-.
  - apply andb_prop in N as [Nc Nr].
    destruct (chama t0 c) as [t1|s] eqn:E; [|discriminate].
    apply (IH t1 t); auto.
    destruct c as [k|k]; cbn [chama] in E.
    + apply negb_true_iff in Nc.
      destruct (_insere_balanceada t0 k B) as (t' & R' & B' & _).
      { intros I. apply Bool.not_true_iff_false in Nc. apply Nc.
        apply existsb_exists. exists k. split; [exact I | apply Z.eqb_refl]. }
      unfold insere in E. congruence.
    + pose proof (_remove_balanceada t0 [] k B) as P.
      unfold remove in E. rewrite E in P. tauto.
Qed.

Lemma insere_todos_ordena ks : forall t0 t,
  StronglySorted Z.le (em_ordem t0) ->
  executa (insere_todos ks) t0 = Retorna t ->
  StronglySorted Z.le (em_ordem t) /\
  Permutation (em_ordem t) (ks ++ em_ordem t0).
Proof.
  induction ks as [|k r IH]; intros t0 t S R;
    cbn [insere_todos map executa chama] in R.
  - injection R as <-. split; [assumption | reflexivity].
  - unfold insere in R. destruct (_insere t0 k) as [t1|s] eqn:E; [|discriminate].
    pose proof (_insere_ordenada t0 k S) as S1.
    pose proof (_insere_permuta t0 k) as P1.
    rewrite E in S1, P1. cbn [arvore_apos] in S1, P1.
    destruct (IH t1 t S1 R) as [S2 P2]. split; [exact S2|].
    rewrite P2, P1. cbn [app]. symmetry. apply Permutation_middle.
Qed.

Lemma insere_todos_distintos ks : forall t0,
  balanceada t0 -> StronglySorted Z.le (em_ordem t0) ->
  NoDup ks -> (forall k, In k ks -> ~ In k (pre_ordem t0)) ->
  exists t,
    executa (insere_todos ks) t0 = Retorna t /\ balanceada t /\
    StronglySorted Z.le (em_ordem t) /\
    Permutation (em_ordem t) (ks ++ em_ordem t0).
Proof.
  induction ks as [|k r IH]; intros t0 B S N F.
  - exists t0. repeat split; auto.
  - apply NoDup_cons_iff in N as [Nk Nr].
    destruct (_insere_balanceada t0 k B) as (t1 & R1 & B1 & _);
      [apply F; now left|].
    pose proof (_insere_ordenada t0 k S) as S1.
    pose proof (_insere_permuta t0 k) as P1.
    rewrite R1 in S1, P1. cbn [arvore_apos] in S1, P1.
    destruct (IH t1 B1 S1 Nr) as (t & R & Bt & St & Pt).
    { intros k' I' I1. apply em_ordem_In in I1.
      apply (Permutation_in _ P1) in I1. destruct I1 as [->|I1]; [tauto|].
      apply (F k'); [now right | now apply em_ordem_In]. }
    exists t. cbn [insere_todos map executa chama]. unfold insere. rewrite R1.
    repeat split; auto.
    rewrite Pt, P1. cbn [app]. symmetry. apply Permutation_middle.
Qed.

Lemma _buscar_vazio_sem_dois_filhos t k :
  _buscar t k = Vazio -> dois_filhos t k = false.
Proof.
  induction t as [|c e IHe d IHd a]; [reflexivity|].
  cbn [_buscar dois_filhos]. rewrite Z.gtb_ltb.
  destruct (Z.eqb_spec c k) as [->|N]; [discriminate|].
  destruct (Z.ltb_spec k c) as [L|L]; [assumption|].
  now replace (c <? k) with true by (symmetry; apply Z.ltb_lt; lia).
Qed.

Lemma _exibe_pre_ordem_vazio t :
  _exibe_pre_ordem t = EmptyString -> t = Vazio.
Proof.
  destruct t as [|c e d a]; [reflexivity|].
  cbn [_exibe_pre_ordem]. destruct e, d; discriminate.
Qed.

(** * Properties beyond the claims *)

(** X1.  [rotacao_direita] raises exactly when the left child is absent.
    When it returns, the new root holds the key of the old left child, the
    in-order sequence and the number of nodes are unchanged, and the two
    nodes it reassigns carry their recomputed heights. *)
Theorem rotacao_direita_preserva t :
  (rotacao_direita t = None <-> esquerda_de t = Vazio) /\
  (forall t', rotacao_direita t = Some t' ->
     chave_de t' = chave_de (esquerda_de t) /\
     chave_de (direita_de t') = chave_de t /\
     em_ordem t' = em_ordem t /\ tamanho t' = tamanho t /\
     altura_em_cache t' = altura t' /\
     altura_em_cache (direita_de t') = altura (direita_de t')).
Proof.
  split.
  - destruct t as [|c [|cc ce cd ca] d a]; cbn; split; congruence.
  - intros t' R.
    destruct (rotacao_direita_alturas t t' R) as [A1 A2].
    pose proof (rotacao_direita_em_ordem t t' R) as E.
    repeat split; auto.
    + destruct t as [|c [|cc ce cd ca] d a]; try discriminate.
      now injection R as <-.
    + destruct t as [|c [|cc ce cd ca] d a]; try discriminate.
      now injection R as <-.
    + now rewrite !tamanho_em_ordem, E.
Qed.

Lemma rotacao_direita_preserva_witness :
  rotacao_direita arvore_de_tres
    = Some (No 5 Vazio (No 10 Vazio (No 12 Vazio Vazio 0) 1) 2) /\
  em_ordem (No 5 Vazio (No 10 Vazio (No 12 Vazio Vazio 0) 1) 2)
    = em_ordem arvore_de_tres.
Proof.
  split; [reflexivity|].
  apply (proj2 (rotacao_direita_preserva arvore_de_tres)). reflexivity.
Defined.

(** X2.  [rotacao_esquerda] raises exactly when the right child is absent.
    When it returns, the new root holds the key of the old right child, the
    in-order sequence and the number of nodes are unchanged, and the two
    nodes it reassigns carry their recomputed heights. *)
Theorem rotacao_esquerda_preserva t :
  (rotacao_esquerda t = None <-> direita_de t = Vazio) /\
  (forall t', rotacao_esquerda t = Some t' ->
     chave_de t' = chave_de (direita_de t) /\
     chave_de (esquerda_de t') = chave_de t /\
     em_ordem t' = em_ordem t /\ tamanho t' = tamanho t /\
     altura_em_cache t' = altura t' /\
     altura_em_cache (esquerda_de t') = altura (esquerda_de t')).
Proof.
  split.
  - destruct t as [|c e [|cc ce cd ca] a]; cbn; split; congruence.
  - intros t' R.
    destruct (rotacao_esquerda_alturas t t' R) as [A1 A2].
    pose proof (rotacao_esquerda_em_ordem t t' R) as E.
    repeat split; auto.
    + destruct t as [|c e [|cc ce cd ca] a]; try discriminate.
      now injection R as <-.
    + destruct t as [|c e [|cc ce cd ca] a]; try discriminate.
      now injection R as <-.
    + now rewrite !tamanho_em_ordem, E.
Qed.

Lemma rotacao_esquerda_preserva_witness :
  rotacao_esquerda (No 10 Vazio (No 20 Vazio (No 30 Vazio Vazio 1) 1) 1)
    = Some (No 20 (No 10 Vazio Vazio 0) (No 30 Vazio Vazio 1) 1) /\
  chave_de (No 20 (No 10 Vazio Vazio 0) (No 30 Vazio Vazio 1) 1)
    = chave_de (direita_de (No 10 Vazio (No 20 Vazio (No 30 Vazio Vazio 1) 1) 1)).
Proof.
  split; [reflexivity|].
  apply (proj2 (rotacao_esquerda_preserva
                  (No 10 Vazio (No 20 Vazio (No 30 Vazio Vazio 1) 1) 1))).
  reflexivity.
Defined.

(** X3.  A left rotation undoes a right rotation and a right rotation
    undoes a left one: the tree comes back with the same keys and shape
    (cached heights apart). *)
Theorem rotacoes_se_desfazem t t' :
  (rotacao_direita t = Some t' ->
   exists t'', rotacao_esquerda t' = Some t'' /\ sem_cache t'' = sem_cache t) /\
  (rotacao_esquerda t = Some t' ->
   exists t'', rotacao_direita t' = Some t'' /\ sem_cache t'' = sem_cache t).
Proof.
  split; [apply rotacao_direita_desfeita | apply rotacao_esquerda_desfeita].
Qed.

Lemma rotacoes_se_desfazem_witness :
  rotacao_direita arvore_de_tres
    = Some (No 5 Vazio (No 10 Vazio (No 12 Vazio Vazio 0) 1) 2) /\
  exists t'',
    rotacao_esquerda (No 5 Vazio (No 10 Vazio (No 12 Vazio Vazio 0) 1) 2)
      = Some t'' /\
    sem_cache t'' = sem_cache arvore_de_tres.
Proof.
  split; [reflexivity|].
  apply (proj1 (rotacoes_se_desfazem arvore_de_tres
                  (No 5 Vazio (No 10 Vazio (No 12 Vazio Vazio 0) 1) 2))).
  reflexivity.
Defined.

(** X4.  On any tree, ordered or not, [buscar] returns either [None] or a
    node that holds the key asked for, and it returns [None] for every key
    that no node holds. *)
Theorem buscar_devolve_no_com_a_chave t k :
  (buscar t k = Vazio \/ exists e d a, buscar t k = No k e d a) /\
  (~ In k (pre_ordem t) -> buscar t k = Vazio).
Proof.
  split; [apply _buscar_chave|].
  intros A. destruct (_buscar_chave t k) as [B|(e & d & a & B)]; [exact B|].
  exfalso. apply A. apply _buscar_na_arvore. unfold buscar in B. congruence.
Qed.

Lemma buscar_devolve_no_com_a_chave_witness :
  ~ In 13 (pre_ordem arvore_de_sete) /\ buscar arvore_de_sete 13 = Vazio.
Proof.
  assert (A : ~ In 13 (pre_ordem arvore_de_sete))
    by (unfold arvore_de_sete; simpl; lia).
  split; [exact A|].
  exact (proj2 (buscar_devolve_no_com_a_chave arvore_de_sete 13) A).
Defined.

(** X5.  On a tree in which every node has its left keys [<=] and its right
    keys [>=] its key, [buscar] finds a node holding the key exactly when
    some node holds it. *)
Theorem buscar_encontra_em_arvore_ordenada t k :
  abb t ->
  (In k (pre_ordem t) <-> exists e d a, buscar t k = No k e d a).
Proof.
  intros A. split.
  - intros I. destruct (_buscar_chave t k) as [B|B]; [|exact B].
    now apply _buscar_completo in B.
  - intros (e & d & a & B). apply _buscar_na_arvore.
    unfold buscar in B. congruence.
Qed.

Lemma buscar_encontra_em_arvore_ordenada_witness :
  abb arvore_de_sete /\
  (In 29 (pre_ordem arvore_de_sete) <->
   exists e d a, buscar arvore_de_sete 29 = No 29 e d a).
Proof.
  assert (A : abb arvore_de_sete) by (unfold arvore_de_sete; simpl; concreto).
  split; [exact A|].
  exact (buscar_encontra_em_arvore_ordenada arvore_de_sete 29 A).
Defined.

(** X6.  After [insere] of a key into a tree whose in-order sequence is
    non-decreasing, [buscar] of that key returns a node that holds it,
    whether the key was new or already there. *)
Theorem insere_depois_buscar t k :
  Sorted Z.le (em_ordem t) ->
  exists e d a, buscar (arvore_apos (insere t k)) k = No k e d a.
Proof.
  intros S. apply Sorted_StronglySorted in S; [|exact Z.le_trans].
  unfold buscar, insere.
  destruct (_buscar_chave (arvore_apos (_insere t k)) k) as [B|B]; [|exact B].
  exfalso. revert B. apply _buscar_completo.
  - apply abb_ordenada. now apply _insere_ordenada.
  - apply em_ordem_In.
    apply (Permutation_in _ (Permutation_sym (_insere_permuta t k))).
    now left.
Qed.

Lemma insere_depois_buscar_witness :
  Sorted Z.le (em_ordem arvore_de_sete) /\
  exists e d a, buscar (arvore_apos (insere arvore_de_sete 19)) 19 = No 19 e d a.
Proof.
  assert (S : Sorted Z.le (em_ordem arvore_de_sete))
    by (unfold arvore_de_sete; simpl; concreto).
  split; [exact S|].
  exact (insere_depois_buscar arvore_de_sete 19 S).
Defined.

(** X7.  [insere] of a key that no node holds, into a balanced tree,
    returns a balanced tree whose height is the old height or one more. *)
Theorem insere_chave_nova_balanceada t k :
  balanceada t -> ~ In k (pre_ordem t) ->
  exists t',
    insere t k = Retorna t' /\ balanceada t' /\
    (altura t' = altura t \/ altura t' = altura t + 1).
Proof.
  intros B A.
  destruct (_insere_balanceada t k B A) as (t' & R & B' & H).
  exists t'. split; [exact R|]. split; [exact B'|].
  destruct H as [H|[H _]]; auto.
Qed.

Lemma insere_chave_nova_balanceada_witness :
  balanceada arvore_de_cinco /\ ~ In 30 (pre_ordem arvore_de_cinco) /\
  exists t',
    insere arvore_de_cinco 30 = Retorna t' /\ balanceada t' /\
    (altura t' = altura arvore_de_cinco \/
     altura t' = altura arvore_de_cinco + 1).
Proof.
  assert (B : balanceada arvore_de_cinco)
    by (unfold arvore_de_cinco; simpl; lia).
  assert (A : ~ In 30 (pre_ordem arvore_de_cinco))
    by (unfold arvore_de_cinco; simpl; lia).
  split; [exact B|]. split; [exact A|].
  exact (insere_chave_nova_balanceada arvore_de_cinco 30 B A).
Defined.

(** X8.  Inserting pairwise distinct keys, in any order, into the empty
    tree never raises; the tree obtained is balanced, its in-order sequence
    is non-decreasing, and it holds exactly the keys inserted. *)
Theorem insere_chaves_distintas ks :
  NoDup ks ->
  exists t,
    executa (insere_todos ks) Vazio = Retorna t /\ balanceada t /\
    Sorted Z.le (em_ordem t) /\ Permutation (em_ordem t) ks.
Proof.
  intros N.
  destruct (insere_todos_distintos ks Vazio) as (t & R & B & S & P);
    auto; try exact I; try constructor.
  exists t. repeat split; auto.
  - now apply StronglySorted_Sorted.
  - now rewrite app_nil_r in P.
Qed.

Lemma insere_chaves_distintas_witness :
  NoDup [50; 30; 20; 10; 40; 70; 60; 80; 90; 100] /\
  exists t,
    executa (insere_todos [50; 30; 20; 10; 40; 70; 60; 80; 90; 100]) Vazio
      = Retorna t /\
    balanceada t /\ Sorted Z.le (em_ordem t) /\
    Permutation (em_ordem t) [50; 30; 20; 10; 40; 70; 60; 80; 90; 100].
Proof.
  assert (N : NoDup [50; 30; 20; 10; 40; 70; 60; 80; 90; 100])
    by (repeat constructor; simpl; lia).
  split; [exact N|].
  exact (insere_chaves_distintas _ N).
Defined.

(** X9.  [remove] keeps a balanced tree balanced, for every key: when it
    returns, the tree returned is balanced and its height is the old height
    or one less; when it raises, the tree it leaves is balanced and has the
    old height. *)
Theorem remove_mantem_balanceada t k :
  balanceada t ->
  match remove t k with
  | Retorna t' =>
      balanceada t' /\ (altura t' = altura t \/ altura t' = altura t - 1)
  | Levanta s => balanceada s /\ altura s = altura t
  end.
Proof.
  apply _remove_balanceada.
Qed.

Lemma remove_mantem_balanceada_witness :
  balanceada arvore_de_cinco /\
  balanceada (arvore_apos (remove arvore_de_cinco 10)).
Proof.
  assert (B : balanceada arvore_de_cinco)
    by (unfold arvore_de_cinco; simpl; lia).
  split; [exact B|].
  pose proof (remove_mantem_balanceada arvore_de_cinco 10 B) as H.
  destruct (remove arvore_de_cinco 10); exact (proj1 H).
Defined.

(** X10.  On a balanced tree, [remove] returns whenever its descent ends
    on no node or on a node with at most one child.  If the descent finds
    no node the in-order sequence is unchanged; if it finds one, exactly
    one occurrence of the key leaves the in-order sequence. *)
Theorem remove_sem_dois_filhos t k :
  balanceada t -> dois_filhos t k = false ->
  exists t',
    remove t k = Retorna t' /\
    (buscar t k = Vazio -> em_ordem t' = em_ordem t) /\
    (buscar t k <> Vazio ->
     exists l1 l2,
       em_ordem t = l1 ++ k :: l2 /\ em_ordem t' = l1 ++ l2 /\
       tamanho t = S (tamanho t')).
Proof.
  intros B D. unfold remove, buscar.
  destruct (_remove_retorna t [] k B D) as (t' & R).
  destruct (_remove_simples_em_ordem t [] k D) as [I1 I2].
  rewrite R in I1, I2. cbn [arvore_apos] in I1, I2.
  exists t'. split; [exact R|]. split; [exact I1|].
  intros H. destruct (I2 H) as (l1 & l2 & E1 & E2).
  exists l1, l2. repeat split; auto.
  rewrite !tamanho_em_ordem, E1, E2, !length_app. cbn [List.length]. lia.
Qed.

Lemma remove_sem_dois_filhos_witness :
  balanceada arvore_de_cinco /\ dois_filhos arvore_de_cinco 25 = false /\
  exists t',
    remove arvore_de_cinco 25 = Retorna t' /\
    (buscar arvore_de_cinco 25 = Vazio ->
     em_ordem t' = em_ordem arvore_de_cinco) /\
    (buscar arvore_de_cinco 25 <> Vazio ->
     exists l1 l2,
       em_ordem arvore_de_cinco = l1 ++ 25 :: l2 /\ em_ordem t' = l1 ++ l2 /\
       tamanho arvore_de_cinco = S (tamanho t')).
Proof.
  assert (B : balanceada arvore_de_cinco)
    by (unfold arvore_de_cinco; simpl; lia).
  split; [exact B|]. split; [reflexivity|].
  exact (remove_sem_dois_filhos arvore_de_cinco 25 B eq_refl).
Defined.

(** X11.  On a tree whose in-order sequence is strictly increasing, after
    a [remove] whose descent does not end on a node with two children,
    [buscar] of the removed key returns [None]. *)
Theorem remove_depois_buscar t k :
  StronglySorted Z.lt (em_ordem t) -> dois_filhos t k = false ->
  buscar (arvore_apos (remove t k)) k = Vazio.
Proof.
  intros S D. unfold buscar, remove.
  destruct (_buscar_chave (arvore_apos (_remove [] t k)) k)
    as [B|(e & d & a & B)]; [exact B|].
  exfalso. apply (_remove_simples_some t k S D).
  apply em_ordem_In. apply _buscar_na_arvore. congruence.
Qed.

Lemma remove_depois_buscar_witness :
  StronglySorted Z.lt (em_ordem arvore_de_cinco) /\
  dois_filhos arvore_de_cinco 20 = true /\
  dois_filhos arvore_de_cinco 15 = false /\
  buscar (arvore_apos (remove arvore_de_cinco 15)) 15 = Vazio.
Proof.
  assert (S : StronglySorted Z.lt (em_ordem arvore_de_cinco))
    by (unfold arvore_de_cinco; simpl; repeat constructor; lia).
  split; [exact S|]. split; [reflexivity|]. split; [reflexivity|].
  exact (remove_depois_buscar arvore_de_cinco 15 S eq_refl).
Defined.

(** X12.  On every tree, ordered or not, [k_esimo_maior k] is the [k]-th
    key met when the tree is walked right subtree, node, left subtree: it
    is a key of the tree for [1 <= k <= n] and [None] for every other
    [k]. *)
Theorem k_esimo_maior_em_qualquer_arvore t k :
  (1 <= k <= Z.of_nat (tamanho t) ->
   exists x,
     k_esimo_maior t k = Some x /\
     nth_error (rev (em_ordem t)) (Z.to_nat (k - 1)) = Some x /\
     In x (pre_ordem t)) /\
  (~ 1 <= k <= Z.of_nat (tamanho t) -> k_esimo_maior t k = None).
Proof.
  split.
  - intros H. rewrite k_esimo_maior_nth, em_ordem_inversa_rev.
    replace (k <=? 0) with false by (symmetry; apply Z.leb_gt; lia).
    destruct (nth_error (rev (em_ordem t)) (Z.to_nat (k - 1))) as [x|] eqn:E.
    + exists x. repeat split.
      apply em_ordem_In, in_rev. eapply nth_error_In. exact E.
    + apply nth_error_None in E.
      rewrite length_rev, <- tamanho_em_ordem in E. lia.
  - intros H. apply k_esimo_maior_fora. lia.
Qed.

Lemma k_esimo_maior_em_qualquer_arvore_witness :
  1 <= 2 <= Z.of_nat (tamanho (No 25 (No 5 Vazio Vazio 0)
                                    (No 20 (No 15 Vazio Vazio 0) Vazio 1) 2)) /\
  exists x,
    k_esimo_maior (No 25 (No 5 Vazio Vazio 0)
                     (No 20 (No 15 Vazio Vazio 0) Vazio 1) 2) 2 = Some x /\
    nth_error (rev (em_ordem (No 25 (No 5 Vazio Vazio 0)
                     (No 20 (No 15 Vazio Vazio 0) Vazio 1) 2))) (Z.to_nat (2 - 1))
      = Some x /\
    In x (pre_ordem (No 25 (No 5 Vazio Vazio 0)
                     (No 20 (No 15 Vazio Vazio 0) Vazio 1) 2)).
Proof.
  assert (H : 1 <= 2 <= Z.of_nat (tamanho (No 25 (No 5 Vazio Vazio 0)
                                    (No 20 (No 15 Vazio Vazio 0) Vazio 1) 2)))
    by (simpl; lia).
  split; [exact H|].
  exact (proj1 (k_esimo_maior_em_qualquer_arvore _ 2) H).
Defined.

(** X13.  After the keys of a list have been inserted one by one into the
    empty tree, [k_esimo_maior 1], ..., [k_esimo_maior n] list these keys
    in descending order, repeated keys included. *)
Theorem insere_e_k_esimo_maior_ordenam ks t :
  executa (insere_todos ks) Vazio = Retorna t ->
  tamanho t = List.length ks /\
  map (k_esimo_maior t) (de_1_ate (List.length ks))
    = map Some (ordena_decrescente ks).
Proof.
  intros R.
  destruct (insere_todos_ordena ks Vazio t) as [S P];
    [constructor | exact R |].
  rewrite app_nil_r in P.
  assert (L : tamanho t = List.length ks)
    by (rewrite tamanho_em_ordem; now apply Permutation_length).
  split; [exact L|].
  rewrite <- L, k_esimo_maior_de_1_ate. f_equal.
  rewrite <- (ordena_decrescente_permuta _ _ P).
  rewrite (ordena_decrescente_permuta _ _ (em_ordem_pre_ordem t)).
  symmetry. apply em_ordem_inversa_ordenacao.
  now apply StronglySorted_Sorted.
Qed.

Lemma insere_e_k_esimo_maior_ordenam_witness :
  executa (insere_todos [10; 10; 11; 5; 12]) Vazio
    = Retorna (No 10 (No 10 (No 5 Vazio Vazio 1) Vazio 1)
                 (No 11 Vazio (No 12 Vazio Vazio 1) 1) 2) /\
  map (k_esimo_maior (No 10 (No 10 (No 5 Vazio Vazio 1) Vazio 1)
                        (No 11 Vazio (No 12 Vazio Vazio 1) 1) 2))
    [1; 2; 3; 4; 5]
    = map Some [12; 11; 10; 10; 5].
Proof.
  split; [reflexivity|].
  exact (proj2 (insere_e_k_esimo_maior_ordenam [10; 10; 11; 5; 12] _ eq_refl)).
Defined.

(** X14.  On a present node [__minimo] returns the leftmost node: a node
    without left child whose key is the first of the in-order sequence. *)
Theorem __minimo_devolve_primeiro_no t :
  t <> Vazio ->
  exists m r a,
    __minimo t = Some (No m Vazio r a) /\ hd_error (em_ordem t) = Some m.
Proof.
  apply __minimo_primeiro_no.
Qed.

Lemma __minimo_devolve_primeiro_no_witness :
  arvore_de_sete <> Vazio /\
  exists m r a,
    __minimo arvore_de_sete = Some (No m Vazio r a) /\
    hd_error (em_ordem arvore_de_sete) = Some m.
Proof.
  assert (N : arvore_de_sete <> Vazio) by discriminate.
  split; [exact N|].
  exact (__minimo_devolve_primeiro_no arvore_de_sete N).
Defined.

(** X15.  On a tree whose in-order sequence is strictly increasing,
    [__sucessor] of the node that [buscar] finds for a stored key returns
    the node holding the least key above it, and [None] when the key is
    the greatest. *)
Theorem __sucessor_devolve_proxima_chave t c :
  StronglySorted Z.lt (em_ordem t) -> In c (pre_ordem t) ->
  exists s,
    __sucessor t (buscar t c) = Some s /\
    chave_de s = proximo c (em_ordem t).
Proof.
  apply __sucessor_proximo_no.
Qed.

Lemma __sucessor_devolve_proxima_chave_witness :
  StronglySorted Z.lt (em_ordem arvore_de_sete) /\
  In 14 (pre_ordem arvore_de_sete) /\
  proximo 14 (em_ordem arvore_de_sete) = Some 19 /\
  exists s,
    __sucessor arvore_de_sete (buscar arvore_de_sete 14) = Some s /\
    chave_de s = proximo 14 (em_ordem arvore_de_sete).
Proof.
  assert (S : StronglySorted Z.lt (em_ordem arvore_de_sete))
    by (unfold arvore_de_sete; simpl; repeat constructor; lia).
  assert (I : In 14 (pre_ordem arvore_de_sete))
    by (unfold arvore_de_sete; simpl; lia).
  split; [exact S|]. split; [exact I|]. split; [reflexivity|].
  exact (__sucessor_devolve_proxima_chave arvore_de_sete 14 S I).
Defined.

(** X16.  The pre-order text is empty only for the empty tree, it does not
    depend on the cached heights, and it does not tell an only left child
    from an only right child. *)
Theorem exibe_pre_ordem_nao_distingue_filho_unico :
  (forall t, exibe_pre_ordem t = EmptyString <-> t = Vazio) /\
  (forall t, exibe_pre_ordem (sem_cache t) = exibe_pre_ordem t) /\
  (forall c f a a',
     exibe_pre_ordem (No c f Vazio a) = exibe_pre_ordem (No c Vazio f a')).
Proof.
  split; [|split].
  - intros t. split; [apply _exibe_pre_ordem_vazio | now intros ->].
  - apply _exibe_pre_ordem_sem_cache.
  - intros c f a a'. unfold exibe_pre_ordem. cbn [_exibe_pre_ordem].
    now destruct f.
Qed.

(** X17.  After any run of [insere] and [remove] calls that return,
    started on the empty tree, every node's cached height is the height
    recomputed by [altura], except that a node without children may hold
    1. *)
Theorem cache_apos_chamadas cs t :
  executa cs Vazio = Retorna t -> cache_salvo_folhas t.
Proof.
  apply executa_cache. exact I.
Qed.

Lemma cache_apos_chamadas_witness :
  executa (insere_todos [10; 5; 20; 15; 25] ++ [Remove 5; Insere 30; Remove 15])
    Vazio
    = Retorna (No 20 (No 10 Vazio Vazio 0)
                 (No 25 Vazio (No 30 Vazio Vazio 1) 1) 2) /\
  cache_salvo_folhas (No 20 (No 10 Vazio Vazio 0)
                        (No 25 Vazio (No 30 Vazio Vazio 1) 1) 2).
Proof.
  split; [reflexivity|].
  apply (cache_apos_chamadas
           (insere_todos [10; 5; 20; 15; 25]
              ++ [Remove 5; Insere 30; Remove 15])).
  reflexivity.
Defined.

(** X18.  The height that [altura] computes is at least -1 and below the
    number of nodes; on a balanced tree of height [h] the number of nodes
    is at least [fib (h + 3) - 1], so the height grows only
    logarithmically with the number of nodes. *)
Theorem altura_de_arvore_balanceada t :
  -1 <= altura t < Z.of_nat (tamanho t) /\
  (balanceada t ->
   (fib (Z.to_nat (altura t + 3)) <= S (tamanho t))%nat).
Proof.
  split; [split; [apply altura_min | apply altura_tamanho]|].
  apply balanceada_fib.
Qed.

Lemma altura_de_arvore_balanceada_witness :
  balanceada arvore_de_sete /\
  (fib (Z.to_nat (altura arvore_de_sete + 3)) <= S (tamanho arvore_de_sete))%nat.
Proof.
  assert (B : balanceada arvore_de_sete)
    by (unfold arvore_de_sete; simpl; lia).
  split; [exact B|].
  exact (proj2 (altura_de_arvore_balanceada arvore_de_sete) B).
Defined.

(** X19.  A run of calls started on the empty tree, in which every
    [insere] gives a key that no node holds at that moment and every call
    returns, ends on a balanced tree. *)
Theorem executa_mantem_balanceada cs t :
  insere_chaves_novas cs Vazio = true ->
  executa cs Vazio = Retorna t ->
  balanceada t.
Proof.
  apply executa_balanceada. exact I.
Qed.

Lemma executa_mantem_balanceada_witness :
  insere_chaves_novas
    (insere_todos [10; 5; 20; 15; 25] ++ [Remove 10; Insere 10; Remove 5])
    Vazio = true /\
  executa
    (insere_todos [10; 5; 20; 15; 25] ++ [Remove 10; Insere 10; Remove 5])
    Vazio
    = Retorna (No 25 (No 10 Vazio Vazio 1)
                 (No 20 (No 15 Vazio Vazio 1) Vazio 1) 2) /\
  balanceada (No 25 (No 10 Vazio Vazio 1)
                (No 20 (No 15 Vazio Vazio 1) Vazio 1) 2).
Proof.
  split; [reflexivity|]. split; [reflexivity|].
  apply (executa_mantem_balanceada
           (insere_todos [10; 5; 20; 15; 25] ++ [Remove 10; Insere 10; Remove 5]));
    reflexivity.
Defined.

(** X20.  [vazia] holds exactly of the tree without keys, and the tree is
    never empty after [insere], whether the call returns or raises. *)
Theorem vazia_e_insere t k :
  (vazia t = true <-> pre_ordem t = []) /\
  vazia (arvore_apos (insere t k)) = false.
Proof.
  split.
  - destruct t; cbn; split; congruence.
  - pose proof (_insere_permuta t k) as P. unfold insere.
    destruct (arvore_apos (_insere t k)); [|reflexivity].
    apply Permutation_nil in P. discriminate.
Qed.
